(** * Corretor: a frequency-weighted spelling corrector (corretor.py)

    A shallow embedding of [corretor.py] and the properties of its
    specification.  Python strings are sequences of Unicode code points and
    are modelled as lists of [N]; a [set] is a [gset], the [Counter] holding
    the vocabulary is an association list in insertion order (the order in
    which Python iterates a dict). *)

From Stdlib Require Import Ascii QArith.
From stdpp Require Import gmap list strings.

Open Scope nat_scope.

(** Python [str]: a sequence of code points. *)
Abbreviation str := (list N).

(** ** String literals

    The code points of a Rocq string literal, one per byte: enough to write
    ASCII words; accented letters are written as numbers. *)
Fixpoint lit (s : string) : str :=
  match s with
  | EmptyString => []
  | String c s' => N_of_ascii c :: lit s'
  end.

(** * Distance metric: [edit_distance] *)

Module Distance.

(** Python's [min] of three numbers. *)
Definition min3 (x y z : nat) : nat := Nat.min (Nat.min x y) z.

(** The inner loop body, for column [j]:
    [cur[j] = min(prev[j] + 1, cur[j - 1] + 1, prev[j - 1] + cost)]. *)
Definition inner_step (ai : N) (b : str) (prev cur : list nat) (j : nat)
  : list nat :=
  let cost := if decide (ai = b !!! (j - 1)) then 0 else 1 in
  <[ j := min3 (prev !!! j + 1) (cur !!! (j - 1) + 1)
            (prev !!! (j - 1) + cost) ]> cur.

(** The outer loop body, for row [i]; the state is the pair [(prev, cur)],
    and the two buffers are swapped at the end of the row. *)
Definition outer_step (a b : str) (nb : nat) (st : list nat * list nat)
  (i : nat) : list nat * list nat :=
  let '(prev, cur) := st in
  let cur := <[ 0 := i ]> cur in
  let ai := a !!! (i - 1) in
  let cur := foldl (inner_step ai b prev) cur (seq 1 nb) in
  (cur, prev).

(** [edit_distance(a, b)]: the early exits, then the two-row table.  Every
    index read or written lies inside the buffers, which keep length
    [nb + 1] (lemma [rows_length]). *)
Definition edit_distance (a b : str) : nat :=
  if decide (a = b) then 0
  else
    let na := length a in
    let nb := length b in
    if decide (na = 0) then nb
    else if decide (nb = 0) then na
    else
      let prev := seq 0 (nb + 1) in
      let cur := replicate (nb + 1) 0 in
      let '(prev, _) := foldl (outer_step a b nb) (prev, cur) (seq 1 na) in
      prev !!! nb.

(** ** The specification: single-character edits

    One insertion, deletion or substitution of a character, anywhere in the
    string, and [n] of them in a row. *)
Inductive one_edit : str -> str -> Prop :=
| edit_insert l c r : one_edit (l ++ r) (l ++ c :: r)
| edit_delete l c r : one_edit (l ++ c :: r) (l ++ r)
| edit_substitute l c d r : one_edit (l ++ c :: r) (l ++ d :: r).

Inductive edits : nat -> str -> str -> Prop :=
| edits_0 a : edits 0 a a
| edits_S n a b c : one_edit a b -> edits n b c -> edits (S n) a c.

(** An edit script transforms [a] into [b] reading both from left to right:
    a matching character is kept at cost 0, and a substitution, a deletion
    or an insertion costs 1. [edit_script a b n] holds when some script of
    cost [n] transforms [a] into [b]. *)
Inductive edit_script : str -> str -> nat -> Prop :=
| es_nil : edit_script [] [] 0
| es_keep c a b n : edit_script a b n -> edit_script (c :: a) (c :: b) n
| es_subst c d a b n :
    edit_script a b n -> edit_script (c :: a) (d :: b) (S n)
| es_delete c a b n : edit_script a b n -> edit_script (c :: a) b (S n)
| es_insert d a b n : edit_script a b n -> edit_script a (d :: b) (S n).

(** The Wagner-Fischer recurrence on whole lists, used as the bridge between
    the table and the scripts. *)
Fixpoint lev (a : str) : str -> nat :=
  match a with
  | [] => fun b => length b
  | x :: a' =>
      fix lev_row (b : str) : nat :=
        match b with
        | [] => length a
        | y :: b' =>
            min3 (lev a' b + 1) (lev_row b' + 1)
              (lev a' b' + if decide (x = y) then 0 else 1)
        end
  end.

End Distance.

(** * Unicode

    [str.lower], [str.capitalize], [str.isupper] and the class [\w] of [re]
    come from the Unicode database of the interpreter, which is not part of
    the program.  They are parameters of the development.  The tables are
    written out for the Latin-1 block, where every character of [_WORD_RE]
    and [_LETTERS] lives, and for U+0178, the capital of its last letter; the
    parameters are required to agree with the tables there. *)

Module Latin1.
Open Scope N_scope.

Definition between (lo hi c : N) : bool := (lo <=? c) && (c <=? hi).

(** The code points the tables cover. *)
Definition covered (c : N) : Prop := c <= 255 \/ c = 376.

(** Uppercase letters whose small letter lies 32 places further: A-Z and
    the accented capitals, without the multiplication sign U+00D7. *)
Definition is_upper_pair (c : N) : bool :=
  between 65 90 c || (between 192 222 c && negb (c =? 215)).

(** Lowercase letters whose capital lies 32 places before: a-z and the
    accented small letters, without the division sign U+00F7. *)
Definition is_lower_pair (c : N) : bool :=
  between 97 122 c || (between 224 254 c && negb (c =? 247)).

(** [c.isupper()] for one character. *)
Definition is_upper (c : N) : bool := is_upper_pair c || (c =? 376).

Definition to_lower (c : N) : N :=
  if is_upper_pair c then c + 32 else if c =? 376 then 255 else c.

(** Title case of one character: sharp s (U+00DF) becomes [Ss], y with
    diaeresis (U+00FF) becomes U+0178 and the micro sign (U+00B5) becomes
    the Greek capital U+039C. *)
Definition to_title (c : N) : str :=
  if is_lower_pair c then [c - 32]
  else if c =? 223 then [83; 115]
  else if c =? 255 then [376]
  else if c =? 181 then [924]
  else [c].

(** [s.lower()] *)
Definition lower (s : str) : str := to_lower <$> s.

(** [s.capitalize()]: the first character in title case (as Python does
    since version 3.8), the rest in lowercase. *)
Definition capitalize (s : str) : str :=
  match s with
  | [] => []
  | c :: t => to_title c ++ lower t
  end.

(** The class [\w]: alphanumeric characters and the underscore. *)
Definition is_word (c : N) : bool :=
  between 48 57 c || between 65 90 c || (c =? 95) || between 97 122 c
  || (c =? 170) || (c =? 178) || (c =? 179) || (c =? 181) || (c =? 185)
  || (c =? 186) || between 188 190 c
  || between 192 214 c || between 216 246 c || between 248 255 c
  || (c =? 376).

End Latin1.

Record unicode := {
  lower : str -> str;
  capitalize : str -> str;
  isupper : N -> bool;
  isword : N -> bool;
  lower_latin1 s : Forall Latin1.covered s -> lower s = Latin1.lower s;
  capitalize_latin1 s :
    Forall Latin1.covered s -> capitalize s = Latin1.capitalize s;
  isupper_latin1 c : Latin1.covered c -> isupper c = Latin1.is_upper c;
  isword_latin1 c : Latin1.covered c -> isword c = Latin1.is_word c
}.

(** The database that follows the tables everywhere, used to run the
    program on Latin-1 inputs. *)
Definition latin1_only : unicode :=
  {| lower := Latin1.lower;
     capitalize := Latin1.capitalize;
     isupper := Latin1.is_upper;
     isword := Latin1.is_word;
     lower_latin1 _ _ := eq_refl;
     capitalize_latin1 _ _ := eq_refl;
     isupper_latin1 _ _ := eq_refl;
     isword_latin1 _ _ := eq_refl |}.

(** * Iteration order of sets

    Python iterates a [set] in an order that depends on hashing.  The order
    is a parameter: any enumeration of the elements. *)
Record set_order := {
  set_iter : gset str -> list str;
  set_iter_perm s : set_iter s ≡ₚ elements s
}.

Definition elements_order : set_order :=
  {| set_iter := elements; set_iter_perm _ := reflexivity _ |}.

(** * Vocabulary *)

(** [_LETTERS] *)
Definition _LETTERS : str :=
  lit "abcdefghijklmnopqrstuvwxyz"
    ++ [225; 224; 226; 227; 233; 234; 237; 243; 244; 245; 250; 252; 231]%N.

(** The character class [[A-Za-zÀ-ÿ]] of [_WORD_RE] and [words]. *)
Definition in_word_class (c : N) : bool :=
  Latin1.between 65 90 c || Latin1.between 97 122 c
  || Latin1.between 192 255 c.

(** [re.findall(r"[A-Za-zÀ-ÿ]+", text)]: the maximal runs of the class, from
    left to right; [cur] is the run being read. *)
Fixpoint findall_from (cur text : str) : list str :=
  match text with
  | [] => match cur with [] => [] | _ => [cur] end
  | c :: t =>
      if in_word_class c then findall_from (cur ++ [c]) t
      else match cur with
           | [] => findall_from [] t
           | _ => cur :: findall_from [] t
           end
  end.

(** A [Counter]: the keys in order of first insertion, with their counts. *)
Abbreviation counter := (list (str * Z)).

Fixpoint counter_add (w : str) (c : counter) : counter :=
  match c with
  | [] => [(w, 1%Z)]
  | (k, f) :: c' =>
      if decide (k = w) then (k, (f + 1)%Z) :: c'
      else (k, f) :: counter_add w c'
  end.

Definition Counter (ws : list str) : counter :=
  foldl (fun c w => counter_add w c) [] ws.

(** [w in self.W] and [self.W[w]], which is 0 for a missing key. *)
Definition contains (c : counter) (w : str) : bool := bool_decide (w ∈ c.*1).

Fixpoint count (c : counter) (w : str) : Z :=
  match c with
  | [] => 0%Z
  | (k, f) :: c' => if decide (k = w) then f else count c' w
  end.

Record Corretor := { self_W : counter; self_N : Z }.

(** The instance holding the counts [W]:
    [self.N = sum(self.W.values()) or 1]. *)
Definition with_counts (W : counter) : Corretor :=
  let n := foldr Z.add 0%Z W.*2 in
  {| self_W := W; self_N := if (n =? 0)%Z then 1%Z else n |}.

Section Engine.
Context (U : unicode) (O : set_order).

Definition words (text : str) : list str := findall_from [] (lower U text).

(** [Corretor.__init__]. [corpus] is the text of the corpus file, [None]
    when no path is given or the file does not exist. *)
Definition init (corpus : option str) (min_freq : Z) : Corretor :=
  let W := match corpus with
           | Some txt => Counter (words txt)
           | None => []
           end in
  let W := if (1 <? min_freq)%Z
           then filter (fun wf => (min_freq <= wf.2)%Z) W
           else W in
  with_counts W.

(** [P]: the quotient is taken exactly. Python computes it in floating
    point, which orders the quotients of two counts by the same total in
    the same way for counts below 2^52. *)
Definition P (self : Corretor) (word : str) : Q :=
  if (self_N self =? 0)%Z then 0%Q
  else (inject_Z (count (self_W self) word) / inject_Z (self_N self))%Q.

Definition splits (word : str) : list (str * str) :=
  (fun i => (take i word, drop i word)) <$> seq 0 (length word + 1).

Definition deletes (word : str) : list str :=
  '(L, R) ← splits word;
  match R with [] => [] | _ => [L ++ drop 1 R] end.

Definition transposes (word : str) : list str :=
  '(L, R) ← splits word;
  match R with
  | r0 :: r1 :: R2 => [L ++ [r1] ++ [r0] ++ R2]
  | _ => []
  end.

Definition replaces (word : str) : list str :=
  '(L, R) ← splits word;
  match R with
  | [] => []
  | _ => c ← _LETTERS; [L ++ [c] ++ drop 1 R]
  end.

Definition inserts (word : str) : list str :=
  '(L, R) ← splits word; c ← _LETTERS; [L ++ [c] ++ R].

(** [deletes + transposes + replaces + inserts], and the set made of it. *)
Definition edits1_list (word : str) : list str :=
  deletes word ++ transposes word ++ replaces word ++ inserts word.

Definition edits1 (word : str) : gset str := list_to_set (edits1_list word).

Definition edits2 (word : str) : gset str := set_bind edits1 (edits1 word).

Definition known (self : Corretor) (words_set : gset str) : gset str :=
  filter (fun w => contains (self_W self) w = true) words_set.

(** The loop of [_closest_by_edit_distance] over the keys still to visit;
    [best] is the pair [(best, best_d)], [None] before the first key. *)
Fixpoint closest_loop (word : str) (keys : list str)
  (best : option (str * nat)) : option (str * nat) :=
  match keys with
  | [] => best
  | w :: keys' =>
      let d := Distance.edit_distance word w in
      let better := match best with
                    | None => true
                    | Some (_, best_d) => d <? best_d
                    end in
      if better then
        if d =? 0 then Some (w, d) else closest_loop word keys' (Some (w, d))
      else closest_loop word keys' best
  end.

Definition _closest_by_edit_distance (self : Corretor) (word : str)
  : option str :=
  fst <$> closest_loop word (self_W self).*1 None.

(** [candidates]. A set is true when it is not empty, and
    [{closest} if closest else {word}] also takes the second branch for an
    empty string. *)
Definition candidates (self : Corretor) (word : str) : gset str :=
  if contains (self_W self) word then {[ word ]}
  else
    let c1 := known self (edits1 word) in
    if bool_decide (c1 ≠ ∅) then c1
    else
      let c2 := known self (edits2 word) in
      if bool_decide (c2 ≠ ∅) then c2
      else
        match _closest_by_edit_distance self word with
        | Some ((_ :: _) as closest) => {[ closest ]}
        | _ => {[ word ]}
        end.

(** [min] of a sequence of numbers; it raises [ValueError] on an empty
    one. *)
Definition py_min (l : list nat) : option nat :=
  match l with
  | [] => None
  | x :: l' => Some (foldl Nat.min x l')
  end.

(** [max(x :: l, key=key)]: the first element whose key no later one
    exceeds. *)
Definition py_max_key (key : str -> Q) (x : str) (l : list str) : str :=
  foldl (fun best w => if Qlt_le_dec (key best) (key w) then w else best)
    x l.

(** [correction]; [None] stands for the exception of [min]. *)
Definition correction (self : Corretor) (word : str) : option str :=
  match word with
  | [] => Some word
  | word0 :: _ =>
      let low := lower U word in
      let cands := set_iter O (candidates self low) in
      min_dist ← py_min (Distance.edit_distance low <$> cands);
      let closest_cands :=
        filter (fun w => Distance.edit_distance low w = min_dist) cands in
      let best := match closest_cands with
                  | [] => word
                  | c :: cs => py_max_key (P self) c cs
                  end in
      Some (if isupper U word0 then capitalize U best else best)
  end.

(** [re.split(r'(\W+)', text)]: the runs of word characters and, between
    them, the maximal runs of other characters; [cur] is the run being read
    and [in_sep] tells which kind it is. The list starts and ends with a
    run of word characters, empty if need be. *)
Fixpoint split_from (in_sep : bool) (cur text : str) : list str :=
  match text with
  | [] => if in_sep then [cur; []] else [cur]
  | c :: t =>
      if isword U c then
        if in_sep then cur :: split_from false [c] t
        else split_from false (cur ++ [c]) t
      else
        if in_sep then split_from true (cur ++ [c]) t
        else cur :: split_from true [c] t
  end.

Definition re_split (text : str) : list str := split_from false [] text.

(** [_WORD_RE.fullmatch(p)] *)
Definition fullmatch (p : str) : bool :=
  match p with
  | [] => false
  | _ => forallb in_word_class p
  end.

(** The loop of [correct_sentence] over the parts still to visit. *)
Fixpoint sentence_loop (self : Corretor) (parts : list str)
  (corrected_parts : list str) (corrections : gmap str str)
  : option (list str * gmap str str) :=
  match parts with
  | [] => Some (corrected_parts, corrections)
  | p :: parts' =>
      if fullmatch p then
        cand ← correction self p;
        sentence_loop self parts' (corrected_parts ++ [cand])
          (if decide (lower U cand ≠ lower U p)
           then <[ p := cand ]> corrections else corrections)
      else sentence_loop self parts' (corrected_parts ++ [p]) corrections
  end.

Definition correct_sentence (self : Corretor) (text : str)
  : option (str * gmap str str) :=
  '(corrected_parts, corrections) ← sentence_loop self (re_split text) [] ∅;
  Some (concat corrected_parts, corrections).

End Engine.

(** * The service: [check_text] (app.py) *)

Module App.

(** The response of [/api/check]. *)
Record response := {
  original : str;
  corrected : str;
  changes : gmap str str;
  is_correct : bool
}.

Section App.
Context (U : unicode) (O : set_order).
(** The text of [vocab.txt], [None] when the file does not exist. *)
Context (vocab : option str).

(** [sc = Corretor(corpus_path="vocab.txt")] *)
Definition sc : Corretor := init U vocab 1.

(** [check_text], for the text of the request. *)
Definition check_text (text : str) : option response :=
  '(corrected, changes) ← correct_sentence U O sc text;
  Some {| original := text;
          corrected := corrected;
          changes := changes;
          is_correct := bool_decide (size changes = 0) |}.

End App.
End App.

(** * The splitting the specification describes

    Written after the specification's words, to be compared with
    [correct_sentence]: the word-runs are the maximal runs of letters of the
    class, and every other character belongs to a separator-run. [cur] is
    the run being read and [in_word] its kind. *)
Fixpoint spec_runs_from (in_word : bool) (cur text : str) : list (bool * str) :=
  match text with
  | [] => match cur with [] => [] | _ => [(in_word, cur)] end
  | c :: t =>
      if Bool.eqb (in_word_class c) in_word
      then spec_runs_from in_word (cur ++ [c]) t
      else match cur with
           | [] => spec_runs_from (in_word_class c) [c] t
           | _ => (in_word, cur) :: spec_runs_from (in_word_class c) [c] t
           end
  end.

Definition spec_runs (text : str) : list (bool * str) :=
  spec_runs_from true [] text.

Section SpecSentence.
Context (U : unicode) (O : set_order).

Fixpoint spec_sentence_loop (self : Corretor) (runs : list (bool * str))
  (corrected_parts : list str) (corrections : gmap str str)
  : option (list str * gmap str str) :=
  match runs with
  | [] => Some (corrected_parts, corrections)
  | (true, p) :: runs' =>
      cand ← correction U O self p;
      spec_sentence_loop self runs' (corrected_parts ++ [cand])
        (if decide (lower U cand ≠ lower U p)
         then <[ p := cand ]> corrections else corrections)
  | (false, p) :: runs' =>
      spec_sentence_loop self runs' (corrected_parts ++ [p]) corrections
  end.

Definition spec_correct_sentence (self : Corretor) (text : str)
  : option (str * gmap str str) :=
  '(corrected_parts, corrections) ←
    spec_sentence_loop self (spec_runs text) [] ∅;
  Some (concat corrected_parts, corrections).

End SpecSentence.

(** * Notions used in the statements *)

(** The entry of the full table of [edit_distance]: the distance between
    the first [i] characters of [a] and the first [j] characters of [b]. *)
Definition D (a b : str) (i j : nat) : nat :=
  Distance.lev (reverse (take i a)) (reverse (take j b)).

Section Statements.
Context (U : unicode) (O : set_order).

(** What [correction] computes before it restores the capital: a candidate
    at the smallest distance, of the highest probability among those. *)
Definition selected (self : Corretor) (low best : str) : Prop :=
  best ∈ candidates self low /\
  (forall c, c ∈ candidates self low ->
     Distance.edit_distance low best <= Distance.edit_distance low c) /\
  (forall c, c ∈ candidates self low ->
     Distance.edit_distance low c = Distance.edit_distance low best ->
     (P self c <= P self best)%Q).

Definition recase (word best : str) : str :=
  match word with
  | [] => best
  | word0 :: _ => if isupper U word0 then capitalize U best else best
  end.

(** The value [correction] returns, and what the loop appends for a part. *)
Definition corrected (self : Corretor) (p : str) : str :=
  default p (correction U O self p).

Definition piece (self : Corretor) (p : str) : str :=
  if fullmatch p then corrected self p else p.

Definition record_change (self : Corretor) (m : gmap str str) (p : str)
  : gmap str str :=
  if fullmatch p then
    if decide (lower U (corrected self p) ≠ lower U p)
    then <[ p := corrected self p ]> m else m
  else m.

(** A word-run is recorded when its correction differs from it ignoring
    case. *)
Definition changed (self : Corretor) (k : str) : Prop :=
  fullmatch k = true /\ lower U (corrected self k) ≠ lower U k.

(** The entry the loop records for a part [p] corrected to [r]. *)
Definition change_of (m : gmap str str) (pr : str * str) : gmap str str :=
  if fullmatch pr.1 then
    if decide (lower U pr.2 ≠ lower U pr.1) then <[ pr.1 := pr.2 ]> m else m
  else m.

End Statements.

(** A word in lowercase, or an uppercase letter followed by lowercase:
    the two shapes [correction] can return. *)
Definition lower_or_capitalized (p : str) : Prop :=
  Latin1.lower p = p \/
  exists c t, p = c :: t /\ Latin1.is_upper c = true /\ Latin1.lower t = t.

(** The two vocabularies of the specification's examples. *)
Definition casa_caso : Corretor :=
  with_counts [(lit "casa", 10%Z); (lit "caso", 1%Z)].

Definition rato_pato : Corretor :=
  with_counts [(lit "rato", 5%Z); (lit "pato", 2%Z)].

(** The vocabulary of the corpus ["ab cd a abacd"]. *)
Definition abacd : Corretor :=
  with_counts
    [(lit "ab", 1%Z); (lit "cd", 1%Z); (lit "a", 1%Z); (lit "abacd", 1%Z)].

(** The number of occurrences of a word in a list of words. *)
Definition occurrences (k : str) (ws : list str) : Z :=
  Z.of_nat (length (filter (fun w => w = k) ws)).

(** The distinct words of a list, each at the place of its first
    occurrence. *)
Fixpoint first_occurrences (ws : list str) : list str :=
  match ws with
  | [] => []
  | w :: ws' => w :: filter (fun k => k ≠ w) (first_occurrences ws')
  end.

(** The counts [__init__] keeps of the counter [W]. *)
Definition kept (min_freq : Z) (W : counter) : counter :=
  if (1 <? min_freq)%Z then filter (fun wf => (min_freq <= wf.2)%Z) W else W.

(** * Properties *)

(** ** The distance metric *)

Section DistanceFacts.
Import Distance.

Lemma lev_nil_r a : lev a [] = length a.
Proof. by destruct a. Qed.

Lemma lev_cons x a y b :
  lev (x :: a) (y :: b) =
    min3 (lev a (y :: b) + 1) (lev (x :: a) b + 1)
      (lev a b + if decide (x = y) then 0 else 1).
Proof. reflexivity. Qed.

Lemma min3_cases x y z :
  (min3 x y z = x \/ min3 x y z = y \/ min3 x y z = z) /\
  min3 x y z <= x /\ min3 x y z <= y /\ min3 x y z <= z.
Proof. unfold min3. lia. Qed.

Lemma lev_refl a : lev a a = 0.
Proof.
  induction a as [|x a IH]; [done|].
  rewrite lev_cons, IH, decide_True by done.
  pose proof (min3_cases (lev a (x :: a) + 1) (lev (x :: a) a + 1) (0 + 0)).
  lia.
Qed.

Lemma lev_sym a b : lev a b = lev b a.
Proof.
  revert b. induction a as [|x a IHa]; intros b.
  - by rewrite lev_nil_r.
  - induction b as [|y b IHb]; [done|].
    rewrite !lev_cons, IHb, (IHa (y :: b)), (IHa b). unfold min3.
    repeat case_decide; try congruence; lia.
Qed.

(** [lev] is the cost of some script ... *)
Lemma lev_script a b : edit_script a b (lev a b).
Proof.
  revert b. induction a as [|x a IHa]; intros b.
  - induction b as [|y b IHb]; [constructor|]. by apply es_insert.
  - induction b as [|y b IHb].
    + simpl. apply es_delete. specialize (IHa []). by rewrite lev_nil_r in IHa.
    + rewrite lev_cons.
      pose proof (IHa (y :: b)) as H1. pose proof (IHa b) as H3.
      apply (es_delete x) in H1. apply (es_insert y) in IHb.
      rewrite <- Nat.add_1_r in H1, IHb.
      assert (edit_script (x :: a) (y :: b)
                (lev a b + if decide (x = y) then 0 else 1)) as H3'.
      { case_decide; subst.
        - rewrite Nat.add_0_r. by apply es_keep.
        - rewrite Nat.add_1_r. by apply es_subst. }
      destruct (min3_cases (lev a (y :: b) + 1) (lev (x :: a) b + 1)
                  (lev a b + if decide (x = y) then 0 else 1))
        as [[->|[->| ->]] _]; assumption.
Qed.

(** ... and no script is cheaper. *)
Lemma lev_le_script a b n : edit_script a b n -> lev a b <= n.
Proof.
  induction 1 as [|c a b n _ IH|c d a b n _ IH|c a b n _ IH|d a b n _ IH].
  - done.
  - rewrite lev_cons, decide_True by done.
    pose proof (min3_cases (lev a (c :: b) + 1) (lev (c :: a) b + 1)
                  (lev a b + 0)). lia.
  - rewrite lev_cons.
    pose proof (min3_cases (lev a (d :: b) + 1) (lev (c :: a) b + 1)
                  (lev a b + if decide (c = d) then 0 else 1)).
    case_decide; lia.
  - destruct b as [|y b]; [rewrite lev_nil_r in *; simpl; lia|].
    rewrite lev_cons.
    pose proof (min3_cases (lev a (y :: b) + 1) (lev (c :: a) b + 1)
                  (lev a b + if decide (c = y) then 0 else 1)). lia.
  - destruct a as [|x a]; [simpl in *; lia|].
    rewrite lev_cons.
    pose proof (min3_cases (lev a (d :: b) + 1) (lev (x :: a) b + 1)
                  (lev a b + if decide (x = d) then 0 else 1)). lia.
Qed.

(** Scripts compose along concatenation, hence read equally well from the
    right: the table of [edit_distance] grows its prefixes at the right
    end. *)
Lemma edit_script_app a1 b1 n1 a2 b2 n2 :
  edit_script a1 b1 n1 -> edit_script a2 b2 n2 ->
  edit_script (a1 ++ a2) (b1 ++ b2) (n1 + n2).
Proof.
  intros H1 H2. induction H1; simpl; [done| | | |]; by constructor.
Qed.

Lemma edit_script_reverse a b n :
  edit_script a b n -> edit_script (reverse a) (reverse b) n.
Proof.
  induction 1 as [|c a b n _ IH|c d a b n _ IH|c a b n _ IH|d a b n _ IH];
    rewrite ?reverse_cons; [constructor| | | |].
  - replace n with (n + 0) by lia.
    apply edit_script_app; [done|]. apply es_keep, es_nil.
  - replace (S n) with (n + 1) by lia.
    apply edit_script_app; [done|]. apply es_subst, es_nil.
  - replace (S n) with (n + 1) by lia. rewrite <- (app_nil_r (reverse b)).
    apply edit_script_app; [done|]. apply es_delete, es_nil.
  - replace (S n) with (n + 1) by lia. rewrite <- (app_nil_r (reverse a)).
    apply edit_script_app; [done|]. apply es_insert, es_nil.
Qed.

Lemma lev_reverse a b : lev (reverse a) (reverse b) = lev a b.
Proof.
  apply Nat.le_antisymm; apply lev_le_script.
  - apply edit_script_reverse, lev_script.
  - rewrite <- (reverse_involutive a), <- (reverse_involutive b) at 1.
    apply edit_script_reverse, lev_script.
Qed.

(** *** Scripts and sequences of edits

    A script is a sequence of edits at most as long as its cost, and one
    more edit of the target lengthens the cheapest script by at most 1. *)
Lemma one_edit_cons c a b : one_edit a b -> one_edit (c :: a) (c :: b).
Proof.
  destruct 1 as [l x r|l x r|l x y r].
  - apply (edit_insert (c :: l)).
  - apply (edit_delete (c :: l)).
  - apply (edit_substitute (c :: l)).
Qed.

Lemma one_edit_sym a b : one_edit a b -> one_edit b a.
Proof. destruct 1; constructor. Qed.

Lemma edits_cons c n a b : edits n a b -> edits n (c :: a) (c :: b).
Proof.
  induction 1 as [|n a b d Hab _ IH]; [constructor|].
  eapply edits_S; [by apply one_edit_cons|done].
Qed.

Lemma edit_script_edits a b n :
  edit_script a b n -> exists k, k <= n /\ edits k a b.
Proof.
  induction 1 as [|c a b n _ (k & Hk & IH)|c d a b n _ (k & Hk & IH)
                 |c a b n _ (k & Hk & IH)|d a b n _ (k & Hk & IH)].
  - exists 0. split; [done|constructor].
  - exists k. split; [done|by apply edits_cons].
  - exists (S k). split; [lia|].
    eapply edits_S; [apply (edit_substitute [] c d a)|by apply edits_cons].
  - exists (S k). split; [lia|].
    eapply edits_S; [apply (edit_delete [] c a)|done].
  - exists (S k). split; [lia|].
    eapply edits_S; [apply (edit_insert [] d a)|by apply edits_cons].
Qed.

Lemma edit_script_insert a b n :
  edit_script a b n ->
  forall l r x, b = l ++ r ->
    exists k, k <= S n /\ edit_script a (l ++ x :: r) k.
Proof.
  induction 1 as [|c a b n H IH|c d a b n H IH|c a b n H IH|d a b n H IH];
    intros l r x Hb.
  - symmetry in Hb. apply app_eq_nil in Hb as [-> ->].
    exists 1. split; [done|]. apply es_insert, es_nil.
  - destruct l as [|l0 l]; simplify_eq/=.
    + exists (S n). split; [done|]. by apply es_insert, es_keep.
    + destruct (IH l r x eq_refl) as (k & Hk & Hs). exists k.
      split; [done|by apply es_keep].
  - destruct l as [|l0 l]; simplify_eq/=.
    + exists (S (S n)). split; [done|]. by apply es_insert, es_subst.
    + destruct (IH l r x eq_refl) as (k & Hk & Hs). exists (S k).
      split; [lia|by apply es_subst].
  - destruct (IH l r x Hb) as (k & Hk & Hs). exists (S k).
    split; [lia|by apply es_delete].
  - destruct l as [|l0 l]; simplify_eq/=.
    + exists (S (S n)). split; [done|]. by apply es_insert, es_insert.
    + destruct (IH l r x eq_refl) as (k & Hk & Hs). exists (S k).
      split; [lia|by apply es_insert].
Qed.

Lemma edit_script_delete a b n :
  edit_script a b n ->
  forall l r x, b = l ++ x :: r ->
    exists k, k <= S n /\ edit_script a (l ++ r) k.
Proof.
  induction 1 as [|c a b n H IH|c d a b n H IH|c a b n H IH|d a b n H IH];
    intros l r x Hb.
  - by destruct l.
  - destruct l as [|l0 l]; simplify_eq/=.
    + exists (S n). split; [done|]. by apply es_delete.
    + destruct (IH l r x eq_refl) as (k & Hk & Hs). exists k.
      split; [done|by apply es_keep].
  - destruct l as [|l0 l]; simplify_eq/=.
    + exists (S n). split; [lia|]. by apply es_delete.
    + destruct (IH l r x eq_refl) as (k & Hk & Hs). exists (S k).
      split; [lia|by apply es_subst].
  - destruct (IH l r x Hb) as (k & Hk & Hs). exists (S k).
    split; [lia|by apply es_delete].
  - destruct l as [|l0 l]; simplify_eq/=.
    + exists n. split; [lia|done].
    + destruct (IH l r x eq_refl) as (k & Hk & Hs). exists (S k).
      split; [lia|by apply es_insert].
Qed.

Lemma edit_script_substitute a b n :
  edit_script a b n ->
  forall l r x y, b = l ++ x :: r ->
    exists k, k <= S n /\ edit_script a (l ++ y :: r) k.
Proof.
  induction 1 as [|c a b n H IH|c d a b n H IH|c a b n H IH|d a b n H IH];
    intros l r x y Hb.
  - by destruct l.
  - destruct l as [|l0 l]; simplify_eq/=.
    + exists (S n). split; [done|]. by apply es_subst.
    + destruct (IH l r x y eq_refl) as (k & Hk & Hs). exists k.
      split; [done|by apply es_keep].
  - destruct l as [|l0 l]; simplify_eq/=.
    + exists (S n). split; [lia|]. by apply es_subst.
    + destruct (IH l r x y eq_refl) as (k & Hk & Hs). exists (S k).
      split; [lia|by apply es_subst].
  - destruct (IH l r x y Hb) as (k & Hk & Hs). exists (S k).
    split; [lia|by apply es_delete].
  - destruct l as [|l0 l]; simplify_eq/=.
    + exists (S n). split; [lia|]. by apply es_insert.
    + destruct (IH l r x y eq_refl) as (k & Hk & Hs). exists (S k).
      split; [lia|by apply es_insert].
Qed.

Lemma lev_one_edit a b c : one_edit b c -> lev a c <= lev a b + 1.
Proof.
  intros Hbc. pose proof (lev_script a b) as Hs.
  assert (exists k, k <= S (lev a b) /\ edit_script a c k) as (k & Hk & Hk').
  { destruct Hbc as [l x r|l x r|l x y r].
    - by eapply edit_script_insert.
    - by eapply edit_script_delete.
    - by eapply edit_script_substitute. }
  apply lev_le_script in Hk'. lia.
Qed.

(** No sequence of edits from [a] to [b] is shorter than [lev a b], and one
    has that length. *)
Lemma edits_lev n a b : edits n a b -> lev a b <= n.
Proof.
  induction 1 as [a|n a b c Hab _ IH]; [by rewrite lev_refl|].
  rewrite lev_sym. pose proof (lev_one_edit c b a (one_edit_sym _ _ Hab)).
  rewrite (lev_sym c b) in *. lia.
Qed.

Lemma lev_edits a b : edits (lev a b) a b.
Proof.
  destruct (edit_script_edits a b _ (lev_script a b)) as (k & Hk & He).
  pose proof (edits_lev k a b He). by replace (lev a b) with k by lia.
Qed.

(** *** The two-row table computes the recurrence

    [D i j] is the entry of the full table: the distance between the first
    [i] characters of [a] and the first [j] characters of [b]. *)
Section Table.
Context (a b : str).

Lemma D_0_r i : i <= length a -> D a b i 0 = i.
Proof.
  intros. unfold D. rewrite take_0, lev_nil_r, length_reverse.
  by apply length_take_le.
Qed.

Lemma D_0_l j : j <= length b -> D a b 0 j = j.
Proof.
  intros. unfold D. rewrite take_0. simpl. rewrite length_reverse.
  by apply length_take_le.
Qed.

Lemma D_S i j :
  i < length a -> j < length b ->
  D a b (S i) (S j) =
    min3 (D a b i (S j) + 1) (D a b (S i) j + 1)
      (D a b i j + if decide (a !!! i = b !!! j) then 0 else 1).
Proof.
  intros Hi Hj. unfold D.
  destruct (lookup_lt_is_Some_2 a i Hi) as [x Hx].
  destruct (lookup_lt_is_Some_2 b j Hj) as [y Hy].
  rewrite (take_S_r a i x Hx), (take_S_r b j y Hy), !reverse_snoc, lev_cons.
  by rewrite (list_lookup_total_correct a i x Hx),
    (list_lookup_total_correct b j y Hy).
Qed.

(** The inner loop fills row [S i] from left to right. *)
Lemma inner_loop_row i prev cur k :
  i < length a ->
  (forall j, j <= length b -> prev !!! j = D a b i j) ->
  length cur = length b + 1 ->
  cur !!! 0 = D a b (S i) 0 ->
  k <= length b ->
  let c := foldl (inner_step (a !!! i) b prev) cur (seq 1 k) in
  length c = length b + 1 /\ forall j, j <= k -> c !!! j = D a b (S i) j.
Proof.
  intros Hi Hprev Hlen H0. induction k as [|k IH]; intros Hk; cbv zeta.
  - split; [done|]. intros j Hj. by replace j with 0 by lia.
  - destruct IH as [IHlen IHrow]; [lia|].
    rewrite seq_S, foldl_snoc. replace (1 + k) with (S k) by done.
    split; [unfold inner_step at 1; by rewrite length_insert|].
    intros j Hj. unfold inner_step at 1. replace (S k - 1) with k by lia.
    destruct (decide (j = S k)) as [->|Hne].
    + rewrite list_lookup_total_insert_eq by lia.
      rewrite D_S, !Hprev, IHrow by lia. done.
    + rewrite list_lookup_total_insert_ne by done. apply IHrow. lia.
Qed.

(** The outer loop leaves row [i] in [prev] after [i] iterations. *)
Lemma rows_length i :
  i <= length a ->
  let '(prev, cur) :=
    foldl (outer_step a b (length b))
      (seq 0 (length b + 1), replicate (length b + 1) 0) (seq 1 i) in
  length prev = length b + 1 /\ length cur = length b + 1 /\
  forall j, j <= length b -> prev !!! j = D a b i j.
Proof.
  induction i as [|i IH]; intros Hi.
  - simpl. rewrite length_seq, length_replicate. repeat split.
    intros j Hj. rewrite lookup_total_seq_lt, D_0_l by lia. done.
  - rewrite seq_S, foldl_snoc.
    destruct (foldl _ _ (seq 1 i)) as [prev cur].
    destruct IH as (Hp & Hc & Hrow); [lia|].
    unfold outer_step. replace (1 + i) with (S i) by done.
    replace (S i - 1) with i by lia.
    destruct (inner_loop_row i prev (<[0:=S i]> cur) (length b))
      as [Hlen Hnew]; try done.
    + by rewrite length_insert.
    + rewrite list_lookup_total_insert_eq by lia. by rewrite D_0_r.
Qed.

Lemma edit_distance_lev : edit_distance a b = lev a b.
Proof.
  unfold edit_distance. case_decide as Hab; [subst; by rewrite lev_refl|].
  case_decide as Hna.
  { apply nil_length_inv in Hna. by subst. }
  case_decide as Hnb.
  { apply nil_length_inv in Hnb. subst. by rewrite lev_nil_r. }
  pose proof (rows_length (length a) (Nat.le_refl _)) as H.
  destruct (foldl _ _ _) as [prev cur]. destruct H as (_ & _ & Hrow).
  rewrite Hrow by done. unfold D.
  rewrite !take_ge by done. apply lev_reverse.
Qed.

End Table.

End DistanceFacts.

(** ** Candidate generation *)

Section CandidateFacts.
Import Distance.

Lemma contains_spec (c : counter) w : contains c w = true <-> w ∈ c.*1.
Proof. unfold contains. by rewrite bool_decide_eq_true. Qed.

Lemma contains_false (c : counter) w : contains c w = false <-> w ∉ c.*1.
Proof. unfold contains. by rewrite bool_decide_eq_false. Qed.

Lemma elem_of_known (self : Corretor) (s : gset str) (w : str) :
  w ∈ known self s <-> w ∈ s /\ w ∈ (self_W self).*1.
Proof.
  unfold known. rewrite elem_of_filter, contains_spec. tauto.
Qed.

(** The scan keeps, in [best], a key that is nearest among those visited;
    leaving the loop early at distance 0 does not change that. *)
Lemma closest_loop_spec word keys best :
  (forall b bd, best = Some (b, bd) -> bd = edit_distance word b) ->
  match closest_loop word keys best with
  | None => best = None /\ keys = []
  | Some (v, dv) =>
      dv = edit_distance word v /\
      (v ∈ keys \/ best = Some (v, dv)) /\
      (forall v', v' ∈ keys -> dv <= edit_distance word v') /\
      (forall b bd, best = Some (b, bd) -> dv <= bd)
  end.
Proof.
  revert best. induction keys as [|w keys IH]; intros best Hbest; simpl.
  - destruct best as [[b bd]|]; [|done].
    split_and!; [by eapply Hbest|by right| |].
    + intros v' Hv'. by apply elem_of_nil in Hv'.
    + intros ?? [= -> ->]. done.
  - set (d := edit_distance word w).
    assert (forall keys' r,
      match closest_loop word keys' (Some (w, d)) with
      | Some (v, dv) =>
          dv = edit_distance word v /\
          (v ∈ keys' \/ Some (w, d) = Some (v, dv)) /\
          (forall v', v' ∈ keys' -> dv <= edit_distance word v') /\
          (forall b bd, Some (w, d) = Some (b, bd) -> dv <= bd)
      | None => Some (w, d) = None (A:=str * nat) /\ keys' = []
      end ->
      r = (if d =? 0 then Some (w, d) else closest_loop word keys' (Some (w, d))) ->
      (forall b bd, best = Some (b, bd) -> d < bd) ->
      match r with
      | Some (v, dv) =>
          dv = edit_distance word v /\
          (v ∈ w :: keys' \/ best = Some (v, dv)) /\
          (forall v', v' ∈ w :: keys' -> dv <= edit_distance word v') /\
          (forall b bd, best = Some (b, bd) -> dv <= bd)
      | None => best = None /\ w :: keys' = []
      end) as Hupd.
    { intros keys' r Hrec -> Hlt. destruct (Nat.eqb_spec d 0) as [Hd0|Hd0].
      - split_and!; [done|left; by left| |].
        + intros v' _. lia.
        + intros b bd Hb. lia.
      - destruct (closest_loop word keys' (Some (w, d))) as [[v dv]|];
          [|by destruct Hrec].
        destruct Hrec as (Hdv & Hin & Hmin & Hle).
        specialize (Hle w d eq_refl). split_and!; [done| | |].
        + left. destruct Hin as [Hin|[= <- <-]]; [by right|by left].
        + intros v' [->|Hv']%elem_of_cons; [done|by apply Hmin].
        + intros b bd Hb. specialize (Hlt b bd Hb). lia. }
    destruct best as [[b0 bd0]|]; simpl.
    + destruct (Nat.ltb_spec d bd0) as [Hlt|Hge].
      * eapply Hupd; [apply IH|done|].
        -- by intros ?? [= <- <-].
        -- by intros ?? [= <- <-].
      * specialize (IH (Some (b0, bd0)) Hbest).
        destruct (closest_loop word keys (Some (b0, bd0))) as [[v dv]|];
          [|by destruct IH].
        destruct IH as (Hdv & Hin & Hmin & Hle).
        specialize (Hle b0 bd0 eq_refl). split_and!; [done| | |].
        -- destruct Hin as [Hin|Hin]; [left; by right|by right].
        -- intros v' [->|Hv']%elem_of_cons; [fold d; lia|by apply Hmin].
        -- by intros ?? [= <- <-].
    + eapply Hupd; [apply IH|done|done]. by intros ?? [= <- <-].
Qed.

(** [_closest_by_edit_distance] returns [None] exactly for an empty
    vocabulary, and otherwise a key of smallest distance. *)
Lemma closest_by_edit_distance_spec (self : Corretor) (word : str) :
  match _closest_by_edit_distance self word with
  | None => self_W self = []
  | Some v =>
      v ∈ (self_W self).*1 /\
      forall v', v' ∈ (self_W self).*1 ->
        edit_distance word v <= edit_distance word v'
  end.
Proof.
  unfold _closest_by_edit_distance.
  pose proof (closest_loop_spec word (self_W self).*1 None) as H.
  destruct (closest_loop word (self_W self).*1 None) as [[v dv]|]; simpl.
  - destruct H as (-> & [Hin|Hin] & Hmin & _); [done|done|done].
  - destruct H as [_ H]; [done|]. by apply fmap_nil_inv in H.
Qed.

Lemma candidates_nonempty (self : Corretor) (word : str) : candidates self word ≠ ∅.
Proof.
  unfold candidates. destruct (contains _ _); [set_solver|].
  case_bool_decide as H1; [done|]. case_bool_decide as H2; [done|].
  destruct (_closest_by_edit_distance self word) as [[|]|]; set_solver.
Qed.

End CandidateFacts.

(** ** Word correction *)

Section CorrectionFacts.
Import Distance.
Context (U : unicode) (O : set_order).

Lemma elem_of_set_iter (s : gset str) (x : str) : x ∈ set_iter O s <-> x ∈ s.
Proof. by rewrite (set_iter_perm O s), elem_of_elements. Qed.

Lemma set_iter_singleton (x : str) : set_iter O {[ x ]} = [x].
Proof.
  apply Permutation_singleton_r. by rewrite set_iter_perm, elements_singleton.
Qed.

Lemma set_iter_nonempty (s : gset str) : s ≠ ∅ -> set_iter O s ≠ [].
Proof.
  intros Hs Hnil. apply Hs, leibniz_equiv, elements_empty_iff.
  apply Permutation_nil_r. by rewrite <- set_iter_perm, Hnil.
Qed.

Lemma foldl_min_spec (l : list nat) (x : nat) :
  foldl Nat.min x l ∈ x :: l /\ forall y, y ∈ x :: l -> foldl Nat.min x l <= y.
Proof.
  revert x. induction l as [|z l IH]; intros x; simpl.
  - split; [by left|]. by intros y ->%list_elem_of_singleton.
  - destruct (IH (Nat.min x z)) as [Hin Hle]. split.
    + apply elem_of_cons in Hin as [Hin|Hin]; [|by do 2 right].
      rewrite Hin. destruct (Nat.min_spec x z) as [[_ ->]|[_ ->]];
        [by left|right; by left].
    + intros y Hy. pose proof (Hle (Nat.min x z)) as Hm.
      apply elem_of_cons in Hy as [->|[->|Hy]%elem_of_cons].
      * etrans; [apply Hm; by left|lia].
      * etrans; [apply Hm; by left|lia].
      * apply Hle. by right.
Qed.

Lemma py_min_spec (l : list nat) :
  l ≠ [] ->
  exists m, py_min l = Some m /\ m ∈ l /\ forall y, y ∈ l -> m <= y.
Proof.
  destruct l as [|x l]; [done|]. intros _. eexists. split; [done|].
  apply foldl_min_spec.
Qed.

(** [max] with a key returns an element of the list that no element
    exceeds. *)
Lemma py_max_key_spec (key : str -> Q) (x : str) (l : list str) :
  py_max_key key x l ∈ x :: l /\
  forall y, y ∈ x :: l -> (key y <= key (py_max_key key x l))%Q.
Proof.
  unfold py_max_key. revert x. induction l as [|z l IH]; intros x; simpl.
  - split; [by left|]. intros y ->%list_elem_of_singleton. apply Qle_refl.
  - destruct (Qlt_le_dec (key x) (key z)) as [Hlt|Hge].
    + destruct (IH z) as [Hin Hle]. split; [by right|].
      intros y [->|Hy]%elem_of_cons; [|by apply Hle].
      eapply Qle_trans; [apply Qlt_le_weak, Hlt|]. apply Hle. by left.
    + destruct (IH x) as [Hin Hle]. split.
      * apply elem_of_cons in Hin as [->|Hin]; [by left|by do 2 right].
      * intros y [->|[->|Hy]%elem_of_cons]%elem_of_cons.
        -- apply Hle. by left.
        -- eapply Qle_trans; [apply Hge|]. apply Hle. by left.
        -- apply Hle. by right.
Qed.

Lemma correction_selects (self : Corretor) (word : str) :
  word ≠ [] ->
  exists best,
    selected self (lower U word) best /\
    correction U O self word = Some (recase U word best).
Proof.
  destruct word as [|word0 word']; [done|]. intros _.
  unfold correction. set (low := lower U (word0 :: word')).
  set (cands := set_iter O (candidates self low)).
  assert (cands ≠ []) as Hne
    by apply set_iter_nonempty, candidates_nonempty.
  destruct (py_min_spec (edit_distance low <$> cands))
    as (m & -> & Hm & Hmin).
  { by intros ?%fmap_nil_inv. }
  simpl. apply list_elem_of_fmap in Hm as (w & Hw & Hwin).
  destruct (filter _ cands) as [|c cs] eqn:Hf.
  { assert (w ∈ filter (fun w => edit_distance low w = m) cands) as Hwf
      by by apply list_elem_of_filter.
    rewrite Hf in Hwf. by apply elem_of_nil in Hwf. }
  destruct (py_max_key_spec (P self) c cs) as [Hin Hmax].
  exists (py_max_key (P self) c cs). split; [|done].
  rewrite <- Hf in Hin, Hmax.
  apply list_elem_of_filter in Hin as [Hd Hin].
  split_and!.
  - by apply elem_of_set_iter.
  - intros c' Hc'. rewrite Hd. apply Hmin, list_elem_of_fmap_2.
    by apply elem_of_set_iter.
  - intros c' Hc' Hdc'. apply Hmax, list_elem_of_filter.
    split; [congruence|by apply elem_of_set_iter].
Qed.

(** [correction] never raises: [min] always has a candidate to look at. *)
Lemma correction_total (self : Corretor) (word : str) :
  is_Some (correction U O self word).
Proof.
  destruct word as [|word0 word'] eqn:Hw; [by eexists|].
  destruct (correction_selects self (word0 :: word')) as (b & _ & ->);
    [done|by eexists].
Qed.

(** When the candidates are a single word, that word is selected. *)
Lemma correction_singleton (self : Corretor) (word c : str) :
  word ≠ [] ->
  candidates self (lower U word) = {[ c ]} ->
  correction U O self word = Some (recase U word c).
Proof.
  intros Hne Hc. destruct (correction_selects self word Hne)
    as (b & (Hb & _) & ->).
  rewrite Hc in Hb. apply elem_of_singleton in Hb. by subst.
Qed.

End CorrectionFacts.

(** ** Sentence reconstruction *)

Section SentenceFacts.
Context (U : unicode) (O : set_order).

(** *** The split *)

Lemma concat_split_from (b : bool) (cur text : str) :
  concat (split_from U b cur text) = cur ++ text.
Proof.
  revert b cur. induction text as [|c t IH]; intros b cur; simpl.
  - destruct b; simpl; by rewrite ?app_nil_r.
  - destruct (isword U c), b; simpl; rewrite IH; by rewrite <- ?app_assoc.
Qed.

Lemma concat_re_split (text : str) : concat (re_split U text) = text.
Proof. apply concat_split_from. Qed.

(** The parts alternate, starting with a run of word characters: the parts
    at even places hold word characters only, the parts at odd places are
    non-empty and hold no word character, and a run of word characters is
    empty only at the two ends of the list. *)
Lemma even_S (i : nat) : Nat.even (S i) = negb (Nat.even i).
Proof. by rewrite Nat.even_succ, <- Nat.negb_even. Qed.

Lemma split_from_shape (text : str) (b : bool) (cur : str) :
  (if b then cur ≠ [] /\ Forall (fun c => isword U c = false) cur
   else Forall (fun c => isword U c = true) cur) ->
  forall i p, split_from U b cur text !! i = Some p ->
    if xorb b (Nat.even i)
    then Forall (fun c => isword U c = true) p /\
         (p = [] ->
          (i = 0 /\ cur = []) \/ S i = length (split_from U b cur text))
    else p ≠ [] /\ Forall (fun c => isword U c = false) p.
Proof.
  revert b cur. induction text as [|c t IH]; intros b cur Hcur i p Hp.
  - destruct b; simpl in *.
    + destruct i as [|[|i]]; simplify_eq/=; [done|].
      split; [constructor|]. by right.
    + destruct i as [|i]; simplify_eq/=. split; [done|]. intros ->. by left.
  - simpl in Hp |- *. destruct (isword U c) eqn:Hc, b.
    + destruct i as [|i]; [by simplify_eq/=|].
      rewrite even_S. simpl in Hp.
      assert (Forall (fun c => isword U c = true) [c]) as Hcur'
        by by constructor.
      specialize (IH false [c] Hcur' i p Hp). simpl in IH.
      destruct (Nat.even i); simpl; [|done].
      destruct IH as [HF He]. split; [done|].
      intros Hnil. destruct (He Hnil) as [[_ ?]|?]; [done|]. right. lia.
    + assert (Forall (fun c => isword U c = true) (cur ++ [c])) as Hcur'
        by (apply Forall_app; split; [done|by constructor]).
      specialize (IH false (cur ++ [c]) Hcur' i p Hp). simpl in *.
      destruct (Nat.even i); [|done]. destruct IH as [HF He].
      split; [done|]. intros Hnil.
      destruct (He Hnil) as [[_ ?]|?]; [by destruct cur|by right].
    + assert (cur ++ [c] ≠ [] /\
              Forall (fun c => isword U c = false) (cur ++ [c])) as Hcur'.
      { split; [by destruct cur|].
        apply Forall_app; split; [apply Hcur|by constructor]. }
      specialize (IH true (cur ++ [c]) Hcur' i p Hp). simpl in *.
      destruct (Nat.even i); [done|]. destruct IH as [HF He].
      split; [done|]. intros Hnil.
      destruct (He Hnil) as [[-> ?]|?]; [by destruct cur|by right].
    + destruct i as [|i].
      { simplify_eq/=. split; [done|]. intros ->. by left. }
      rewrite even_S. simpl in Hp.
      assert ([c] ≠ [] /\ Forall (fun c => isword U c = false) [c]) as Hcur'
        by (split; [done|by constructor]).
      specialize (IH true [c] Hcur' i p Hp). simpl in IH.
      destruct (Nat.even i); simpl; [done|].
      destruct IH as [HF He]. split; [done|].
      intros Hnil. destruct (He Hnil) as [[-> ?]|?]; [done|]. right. lia.
Qed.

(** *** The loop *)

Lemma correction_corrected (self : Corretor) (p : str) :
  correction U O self p = Some (corrected U O self p).
Proof.
  unfold corrected. by destruct (correction_total U O self p) as [r ->].
Qed.

Lemma sentence_loop_eq (self : Corretor) (parts cp : list str)
  (corr : gmap str str) :
  sentence_loop U O self parts cp corr =
    Some (cp ++ (piece U O self <$> parts), foldl (record_change U O self) corr parts).
Proof.
  revert cp corr. induction parts as [|p parts IH]; intros cp corr; simpl.
  - by rewrite app_nil_r.
  - unfold piece at 1, record_change at 2. destruct (fullmatch p).
    + rewrite correction_corrected. simpl. rewrite IH.
      by rewrite <- app_assoc.
    + rewrite IH. by rewrite <- app_assoc.
Qed.

Lemma correct_sentence_eq (self : Corretor) (text : str) :
  correct_sentence U O self text =
    Some (concat (piece U O self <$> re_split U text),
          foldl (record_change U O self) ∅ (re_split U text)).
Proof. unfold correct_sentence. by rewrite sentence_loop_eq. Qed.

Lemma lookup_record_change (self : Corretor) (m : gmap str str) (p k : str) :
  record_change U O self m p !! k =
    if decide (k = p /\ changed U O self k) then Some (corrected U O self k)
    else m !! k.
Proof.
  unfold record_change, changed. destruct (fullmatch p) eqn:Hp.
  - destruct (decide (lower U (corrected U O self p) ≠ lower U p)) as [Hd|Hd].
    + destruct (decide (k = p)) as [->|Hne].
      * rewrite lookup_insert_eq, decide_True; done.
      * rewrite lookup_insert_ne by done. rewrite decide_False; [done|tauto].
    + rewrite decide_False; [done|]. intros (-> & _ & ?). done.
  - rewrite decide_False; [done|]. intros (-> & ? & _). congruence.
Qed.

Lemma lookup_changes (self : Corretor) (parts : list str) (m : gmap str str)
  (k : str) :
  foldl (record_change U O self) m parts !! k =
    if decide (k ∈ parts /\ changed U O self k) then Some (corrected U O self k)
    else m !! k.
Proof.
  revert m. induction parts as [|p parts IH]; intros m.
  - destruct (decide _) as [[[]%elem_of_nil _]|_]. done.
  - change (foldl (record_change U O self) (record_change U O self m p) parts !! k =
              if decide (k ∈ p :: parts /\ changed U O self k)
              then Some (corrected U O self k) else m !! k).
    rewrite IH, lookup_record_change.
    destruct (decide (k ∈ parts /\ changed U O self k)) as [[Hin Hc]|Hn].
    + rewrite decide_True; [done|]. split; [by right|done].
    + destruct (decide (k = p /\ changed U O self k)) as [[-> Hc]|Hn'].
      * rewrite decide_True; [done|]. split; [by left|done].
      * rewrite decide_False; [done|].
        intros [[->|Hin]%elem_of_cons Hc]; tauto.
Qed.

End SentenceFacts.

(** ** The case tables *)

Section TableFacts.
Import Latin1.
Local Open Scope N_scope.

Ltac no_if t :=
  lazymatch t with
  | context [if _ then _ else _] => fail
  | _ => idtac
  end.

Ltac cmp_cases :=
  unfold in_word_class, to_lower, to_title, is_upper, covered in *;
  unfold is_upper_pair, is_lower_pair in *; unfold between in *;
  repeat (match goal with
          | |- context [?a <=? ?b] =>
              no_if a; no_if b; destruct (N.leb_spec a b)
          | |- context [?a =? ?b] =>
              no_if a; no_if b; destruct (N.eqb_spec a b)
          end; try (exfalso; lia); simpl).

Lemma class_covered c : in_word_class c = true -> covered c.
Proof. cmp_cases; intros; try done; lia. Qed.

Lemma to_lower_covered c : covered c -> covered (to_lower c).
Proof. cmp_cases; intros; lia. Qed.

Lemma to_lower_idem c : to_lower (to_lower c) = to_lower c.
Proof. cmp_cases; lia. Qed.

Lemma to_lower_class c :
  in_word_class c = true -> in_word_class (to_lower c) = true.
Proof. cmp_cases; intros; try done; lia. Qed.

Lemma to_title_to_lower c :
  is_upper c = true -> to_title (to_lower c) = [c].
Proof. cmp_cases; intros; try done; f_equal; lia. Qed.

Lemma to_lower_fixed_not_upper c : to_lower c = c -> is_upper c = false.
Proof. cmp_cases; intros; try done; lia. Qed.

(** The capital of a lowercase character of the class lowers back to it,
    except for the sharp s. *)
Lemma to_title_lowers_back c :
  in_word_class c = true -> to_lower c = c -> c ≠ 223 ->
  exists c', to_title c = [c'] /\ covered c' /\ to_lower c' = c.
Proof.
  intros Hc Hl Hss.
  destruct (is_lower_pair c) eqn:Hp.
  - exists (c - 32). revert Hc Hl Hp. cmp_cases; intros; try done;
      split_and!; try done; lia.
  - destruct (N.eq_dec c 255) as [->|Hy].
    + exists 376. by split_and!; [|right|].
    + exists c. revert Hc Hl Hp. cmp_cases; intros; try done;
        split_and!; try done; try lia.
Qed.

End TableFacts.

(** ** Words of the class [[A-Za-zÀ-ÿ]] *)

Section ClassWords.
Context (U : unicode) (O : set_order).

Lemma fullmatch_spec (p : str) :
  fullmatch p = true <->
  p ≠ [] /\ Forall (fun c => in_word_class c = true) p.
Proof.
  unfold fullmatch. destruct p as [|c t]; [split; [done|by intros [? _]]|].
  rewrite forallb_forall, Forall_forall.
  setoid_rewrite list_elem_of_In. split; [by intros H|by intros [_ H]].
Qed.

Lemma class_word_covered (p : str) :
  Forall (fun c => in_word_class c = true) p -> Forall Latin1.covered p.
Proof. intros H. eapply Forall_impl; [exact H|apply class_covered]. Qed.

Lemma lower_covered (p : str) :
  Forall Latin1.covered p -> Forall Latin1.covered (Latin1.lower p).
Proof.
  intros H. unfold Latin1.lower. apply Forall_fmap.
  eapply Forall_impl; [exact H|]. apply to_lower_covered.
Qed.

Lemma lower_idem (p : str) : Latin1.lower (Latin1.lower p) = Latin1.lower p.
Proof.
  unfold Latin1.lower. rewrite <- list_fmap_compose. apply list_fmap_ext.
  intros _ c _. apply to_lower_idem.
Qed.

Lemma lower_class (p : str) :
  fullmatch p = true -> fullmatch (Latin1.lower p) = true.
Proof.
  rewrite !fullmatch_spec. intros [Hne H]. split; [by destruct p|].
  unfold Latin1.lower. apply Forall_fmap.
  eapply Forall_impl; [exact H|]. apply to_lower_class.
Qed.

(** Restoring the capital of the lowercase form of a word of the class
    changes no letter. *)
Lemma lower_recase_lower (p : str) :
  fullmatch p = true ->
  lower U (recase U p (lower U p)) = lower U p.
Proof.
  intros [Hne Hp%class_word_covered]%fullmatch_spec.
  destruct p as [|c t]; [done|]. simpl.
  apply Forall_cons in Hp as Hct. destruct Hct as [Hc Ht].
  rewrite (isupper_latin1 U c Hc), (lower_latin1 U (c :: t) Hp).
  destruct (Latin1.is_upper c) eqn:Hup.
  - rewrite capitalize_latin1 by by apply lower_covered.
    simpl. rewrite to_title_to_lower by done. simpl.
    fold (Latin1.lower t). rewrite lower_idem, lower_latin1.
    + change (Latin1.to_lower c :: Latin1.lower (Latin1.lower t) =
                Latin1.to_lower c :: Latin1.lower t).
      by rewrite lower_idem.
    + constructor; [done|by apply lower_covered].
  - rewrite lower_latin1 by by apply (lower_covered (c :: t)).
    apply lower_idem.
Qed.

(** A word of the class that is in lowercase, or an uppercase letter
    followed by lowercase, is what restoring the capital of its lowercase
    form gives back. *)
Lemma recase_lower_fixed (p : str) :
  fullmatch p = true ->
  (Latin1.lower p = p \/
   exists c t, p = c :: t /\ Latin1.is_upper c = true /\ Latin1.lower t = t) ->
  recase U p (lower U p) = p.
Proof.
  intros [Hne Hp%class_word_covered]%fullmatch_spec Hform.
  destruct p as [|c t]; [done|]. simpl.
  apply Forall_cons in Hp as Hct. destruct Hct as [Hc Ht].
  rewrite (isupper_latin1 U c Hc), (lower_latin1 U (c :: t) Hp).
  destruct Hform as [Hl|(c' & t' & [= <- <-] & Hup & Hl)].
  - injection Hl as Hlc Hlt. fold (Latin1.lower t) in Hlt.
    rewrite (to_lower_fixed_not_upper c Hlc). simpl.
    fold (Latin1.lower t). by rewrite Hlc, Hlt.
  - rewrite Hup, capitalize_latin1 by by apply (lower_covered (c :: t)).
    simpl. rewrite to_title_to_lower by done. simpl.
    fold (Latin1.lower t). by rewrite lower_idem, Hl.
Qed.

(** On covered text the split is that of the tables. *)
Lemma split_from_latin1 (b : bool) (cur text : str) :
  Forall Latin1.covered text ->
  split_from U b cur text = split_from latin1_only b cur text.
Proof.
  revert b cur. induction text as [|c t IH]; intros b cur Hct; [done|].
  apply Forall_cons in Hct as [Hc Ht]. simpl.
  rewrite (isword_latin1 U c Hc).
  destruct (Latin1.is_word c), b; by rewrite ?IH.
Qed.

End ClassWords.

(** ** Particular vocabularies *)

Section VocabularyFacts.
Context (U : unicode) (O : set_order).

Lemma known_empty (self : Corretor) (s : gset str) :
  self_W self = [] -> known self s = ∅.
Proof.
  intros HW. apply set_eq. intros w. rewrite elem_of_known, HW. simpl.
  rewrite elem_of_nil, elem_of_empty. tauto.
Qed.

Lemma candidates_empty_vocabulary (self : Corretor) (word : str) :
  self_W self = [] -> candidates self word = {[ word ]}.
Proof.
  intros HW. unfold candidates. rewrite !known_empty by done.
  unfold contains, _closest_by_edit_distance. rewrite HW. simpl.
  by rewrite bool_decide_eq_false_2 by (intros H; by apply H).
Qed.

Lemma candidates_known_word (self : Corretor) (word : str) :
  word ∈ (self_W self).*1 -> candidates self word = {[ word ]}.
Proof.
  intros Hin. unfold candidates.
  by rewrite (proj2 (contains_spec _ _) Hin).
Qed.

(** Every candidate is a vocabulary word or the word itself. *)
Lemma candidates_subset (self : Corretor) (word c : str) :
  c ∈ candidates self word -> c ∈ (self_W self).*1 \/ c = word.
Proof.
  unfold candidates.
  destruct (contains _ _); [intros ->%elem_of_singleton; by right|].
  case_bool_decide.
  { intros [_ ?]%elem_of_known. by left. }
  case_bool_decide.
  { intros [_ ?]%elem_of_known. by left. }
  pose proof (closest_by_edit_distance_spec self word) as H'.
  destruct (_closest_by_edit_distance self word) as [[|x v]|];
    intros ->%elem_of_singleton; [by right| |by right].
  left. apply (proj1 H').
Qed.

Lemma correction_known_word (self : Corretor) (word : str) :
  word ≠ [] -> lower U word ∈ (self_W self).*1 ->
  correction U O self word = Some (recase U word (lower U word)).
Proof.
  intros Hne Hin. apply correction_singleton; [done|].
  by apply candidates_known_word.
Qed.

Lemma correction_empty_vocabulary (self : Corretor) (word : str) :
  word ≠ [] -> self_W self = [] ->
  correction U O self word = Some (recase U word (lower U word)).
Proof.
  intros Hne HW. apply correction_singleton; [done|].
  by apply candidates_empty_vocabulary.
Qed.

(** The known words among [edits1], read off the vocabulary. *)
Lemma known_edits1 (self : Corretor) (word : str) :
  known self (edits1 word)
    = list_to_set (filter (fun w => w ∈ edits1_list word) (self_W self).*1).
Proof.
  apply set_eq. intros w.
  rewrite elem_of_known, elem_of_list_to_set, list_elem_of_filter.
  unfold edits1. by rewrite elem_of_list_to_set.
Qed.

Lemma candidates_by_edits1 (self : Corretor) (word : str) (l : list str) :
  contains (self_W self) word = false ->
  filter (fun w => w ∈ edits1_list word) (self_W self).*1 = l ->
  l ≠ [] ->
  candidates self word = list_to_set l.
Proof.
  intros Hw Hl Hne. unfold candidates. rewrite Hw, known_edits1, Hl.
  rewrite bool_decide_eq_true_2; [done|].
  destruct l as [|x l]; [done|]. rewrite list_to_set_cons.
  intros H. assert (x ∈ (∅ : gset str)) as []%elem_of_empty.
  rewrite <- H. apply elem_of_union. left. by apply elem_of_singleton.
Qed.

(** [correct_sentence] on a text whose parts and their corrections are
    known. *)
Lemma correct_sentence_eval (self : Corretor) (text : str)
  (parts outs : list str) :
  re_split U text = parts ->
  Forall2 (fun p r =>
             fullmatch p = true /\ correction U O self p = Some r \/
             fullmatch p = false /\ r = p) parts outs ->
  correct_sentence U O self text
    = Some (concat outs, foldl (change_of U) ∅ (zip parts outs)).
Proof.
  intros <- H. rewrite correct_sentence_eq.
  assert (forall p r,
            (fullmatch p = true /\ correction U O self p = Some r \/
             fullmatch p = false /\ r = p) ->
            piece U O self p = r /\
            forall m, record_change U O self m p = change_of U m (p, r))
    as Hone.
  { intros p r Hp. unfold piece, record_change, change_of, corrected.
    simpl. by destruct Hp as [[-> ->]|[-> ->]]. }
  f_equal. f_equal.
  - f_equal. induction H as [|p r parts outs Hp _ IH]; [done|].
    rewrite fmap_cons, IH. by destruct (Hone p r Hp) as [-> _].
  - generalize (∅ : gmap str str).
    induction H as [|p r parts outs Hp _ IH]; intros m; [done|].
    destruct (Hone p r Hp) as [_ Hm].
    change (foldl (record_change U O self) (record_change U O self m p) parts
            = foldl (change_of U) (change_of U m (p, r)) (zip parts outs)).
    by rewrite Hm, IH.
Qed.

End VocabularyFacts.

(** ** Vocabularies built by [init] *)

Section InitFacts.
Context (U : unicode).

Lemma findall_from_spec (Q : N -> Prop) (cur text : str) :
  Forall (fun c => in_word_class c = true /\ Q c) cur ->
  Forall Q text ->
  forall w, w ∈ findall_from cur text ->
    w ≠ [] /\ Forall (fun c => in_word_class c = true /\ Q c) w.
Proof.
  revert cur. induction text as [|c t IH]; intros cur Hcur Ht w; simpl.
  - destruct cur; [by intros ?%elem_of_nil|].
    by intros ->%list_elem_of_singleton.
  - apply Forall_cons in Ht as [Hc Ht].
    destruct (in_word_class c) eqn:Hcl.
    + apply IH; [|done]. apply Forall_app. split; [done|by constructor].
    + destruct cur as [|c0 cur].
      * by apply IH.
      * intros [->|Hw]%elem_of_cons; [done|]. by apply (IH []).
Qed.

Lemma counter_add_keys (w : str) (c : counter) (k : str) :
  k ∈ (counter_add w c).*1 -> k = w \/ k ∈ c.*1.
Proof.
  induction c as [|[k' f] c IH]; simpl.
  - intros ->%list_elem_of_singleton. by left.
  - case_decide; simpl.
    + intros Hk. by right.
    + intros [->|Hk]%elem_of_cons; [right; by left|].
      destruct (IH Hk); [by left|right; by right].
Qed.

Lemma Counter_keys (ws : list str) (k : str) : k ∈ (Counter ws).*1 -> k ∈ ws.
Proof.
  unfold Counter. intros Hk.
  assert (k ∈ ([] : counter).*1 \/ k ∈ ws) as [[]%elem_of_nil|]; [|done].
  revert Hk. generalize ([] : counter).
  induction ws as [|w ws IH]; intros c Hk; simpl in *; [by left|].
  destruct (IH _ Hk) as [[->|Hc]%counter_add_keys|Hws].
  - right. by left.
  - by left.
  - right. by right.
Qed.

Lemma init_keys (corpus : option str) (min_freq : Z) (k : str) :
  k ∈ (self_W (init U corpus min_freq)).*1 ->
  exists txt, corpus = Some txt /\ k ∈ words U txt.
Proof.
  unfold init, with_counts. simpl.
  assert (forall W : counter,
            k ∈ (if (1 <? min_freq)%Z
                 then filter (fun wf => (min_freq <= wf.2)%Z) W else W).*1 ->
            k ∈ W.*1) as Hf.
  { intros W. destruct (1 <? min_freq)%Z; [|done].
    intros ([k' f] & -> & [_ Hin]%list_elem_of_filter)%list_elem_of_fmap.
    apply list_elem_of_fmap. by exists (k', f). }
  intros Hk%Hf. destruct corpus as [txt|]; [|by apply elem_of_nil in Hk].
  exists txt. split; [done|]. by apply Counter_keys.
Qed.

(** No vocabulary holds the empty string. *)
Lemma init_keys_nonempty (corpus : option str) (min_freq : Z) :
  [] ∉ (self_W (init U corpus min_freq)).*1.
Proof.
  intros (txt & _ & Hk)%init_keys. unfold words in Hk.
  apply (findall_from_spec (fun _ => True)) in Hk as [? _]; [done|done|].
  by apply Forall_true.
Qed.

(** The words of a vocabulary are in lowercase; shown here for a corpus of
    covered text. *)
Lemma init_keys_lowercase (txt : str) (min_freq : Z) (k : str) :
  Forall Latin1.covered txt ->
  k ∈ (self_W (init U (Some txt) min_freq)).*1 ->
  fullmatch k = true /\ Latin1.lower k = k.
Proof.
  intros Hcov (txt' & [= <-] & Hk)%init_keys. unfold words in Hk.
  rewrite lower_latin1 in Hk by done.
  apply (findall_from_spec (fun c => Latin1.to_lower c = c)) in Hk
    as [Hne Hall]; [|done|].
  - split.
    + apply fullmatch_spec. split; [done|].
      eapply Forall_impl; [exact Hall|]. by intros c [? _].
    + unfold Latin1.lower. clear Hne.
      induction Hall as [|c w [_ Hc] _ IH]; [done|].
      rewrite fmap_cons. by rewrite Hc, IH.
  - unfold Latin1.lower. apply Forall_fmap, Forall_true. intros c. simpl.
    apply to_lower_idem.
Qed.

End InitFacts.

(** * The claims of the specification *)

Ltac covered_text :=
  apply Forall_forall;
  let c := fresh "c" in
  let Hc := fresh "Hc" in
  intros c Hc; vm_compute in Hc;
  repeat (apply elem_of_cons in Hc as [->|Hc]; [first [by left|by right]|]);
  by apply elem_of_nil in Hc.

(** C2. For all strings [a] and [b], [edit_distance a b] is the minimum
    number of single-character insertions, deletions and substitutions that
    transform [a] into [b]: some sequence of that many edits leads from [a]
    to [b], and none is shorter. Consequently [edit_distance a a = 0], and
    [edit_distance a b = edit_distance b a]. *)
Theorem edit_distance_minimum (a b : str) :
  Distance.edits (Distance.edit_distance a b) a b /\
  (forall n, Distance.edits n a b -> Distance.edit_distance a b <= n) /\
  Distance.edit_distance a a = 0 /\
  Distance.edit_distance a b = Distance.edit_distance b a.
Proof.
  rewrite !edit_distance_lev. split_and!.
  - apply lev_edits.
  - intros n. apply edits_lev.
  - apply lev_refl.
  - apply lev_sym.
Qed.

(** C3. For every word and every vocabulary (of non-empty words),
    [candidates] returns a non-empty set and follows the cascade: the
    singleton of the word if it is in the vocabulary; otherwise the
    vocabulary members of [edits1 word] if there are any; otherwise the
    vocabulary members of [edits2 word] if there are any; otherwise the
    singleton of a vocabulary word of smallest edit distance to the word,
    or of the word itself when the vocabulary is empty. *)
Theorem candidates_cascade (self : Corretor) (word : str) :
  [] ∉ (self_W self).*1 ->
  candidates self word ≠ ∅ /\
  (forall (s : gset str) (w : str),
     w ∈ known self s <-> w ∈ s /\ w ∈ (self_W self).*1) /\
  (forall w : str,
     w ∈ edits2 word <-> exists e, e ∈ edits1 word /\ w ∈ edits1 e) /\
  (word ∈ (self_W self).*1 -> candidates self word = {[ word ]}) /\
  (word ∉ (self_W self).*1 ->
   known self (edits1 word) ≠ ∅ ->
   candidates self word = known self (edits1 word)) /\
  (word ∉ (self_W self).*1 ->
   known self (edits1 word) = ∅ -> known self (edits2 word) ≠ ∅ ->
   candidates self word = known self (edits2 word)) /\
  (word ∉ (self_W self).*1 ->
   known self (edits1 word) = ∅ -> known self (edits2 word) = ∅ ->
   (self_W self = [] -> candidates self word = {[ word ]}) /\
   (self_W self ≠ [] ->
    exists v, v ∈ (self_W self).*1 /\
      (forall v', v' ∈ (self_W self).*1 ->
         Distance.edit_distance word v <= Distance.edit_distance word v') /\
      candidates self word = {[ v ]})).
Proof.
  intros Hwf. split_and!.
  - apply candidates_nonempty.
  - apply elem_of_known.
  - intros w. unfold edits2. rewrite elem_of_set_bind. naive_solver.
  - apply candidates_known_word.
  - intros Hw%contains_false H1. unfold candidates.
    by rewrite Hw, bool_decide_eq_true_2.
  - intros Hw%contains_false H1 H2. unfold candidates.
    rewrite Hw, H1, bool_decide_eq_false_2 by (intros H; by apply H).
    by rewrite bool_decide_eq_true_2.
  - intros Hw%contains_false H1 H2. unfold candidates.
    rewrite Hw, H1, H2, bool_decide_eq_false_2 by (intros H; by apply H).
    pose proof (closest_by_edit_distance_spec self word) as Hc.
    destruct (_closest_by_edit_distance self word) as [v|]; split.
    + intros HW. rewrite HW in Hc. by destruct Hc as [?%elem_of_nil _].
    + intros _. destruct Hc as [Hin Hmin]. exists v.
      destruct v as [|x v]; [done|]. done.
    + done.
    + done.
Qed.

(** [candidates_cascade] at the vocabulary [{casa: 10, caso: 1}] and the
    word [caxa]. *)
Lemma candidates_cascade_witness :
  ([] ∉ (self_W casa_caso).*1) /\
  candidates casa_caso (lit "caxa") ≠ ∅.
Proof.
  assert ([] ∉ (self_W casa_caso).*1) as H.
  { intros H. vm_compute in H.
    repeat (apply elem_of_cons in H as [H|H]; [discriminate|]).
    by apply elem_of_nil in H. }
  split; [exact H|].
  exact (proj1 (candidates_cascade _ (lit "caxa") H)).
Defined.

(** The candidates of the examples, read off the vocabulary: the known
    words among [edits1]. *)
Lemma candidates_caxa : candidates casa_caso (lit "caxa") = {[ lit "casa" ]}.
Proof.
  rewrite (candidates_by_edits1 _ _ [lit "casa"]);
    [apply list_to_set_singleton_L|by vm_compute..|done].
Qed.

Lemma candidates_xato :
  candidates rato_pato (lit "xato") = list_to_set [lit "rato"; lit "pato"].
Proof. apply candidates_by_edits1; [by vm_compute..|done]. Qed.

Lemma candidates_sharp_s :
  candidates (with_counts [([223; 97]%N, 1%Z)]) [97; 223; 97]%N
    = {[ [223; 97]%N ]}.
Proof.
  rewrite (candidates_by_edits1 _ _ [[223; 97]%N]);
    [apply list_to_set_singleton_L|by vm_compute..|done].
Qed.

Lemma candidates_olx :
  candidates (with_counts [(lit "ola", 1%Z)]) (lit "olx") = {[ lit "ola" ]}.
Proof.
  rewrite (candidates_by_edits1 _ _ [lit "ola"]);
    [apply list_to_set_singleton_L|by vm_compute..|done].
Qed.

(** The vocabulary built from the corpus ["ab cd a abacd"]. *)
Lemma abacd_vocabulary :
  init latin1_only (Some (lit "ab cd a abacd")) 1 = abacd.
Proof. by vm_compute. Qed.

Lemma candidates_multiplication_sign :
  candidates abacd [215%N] = {[ lit "a" ]}.
Proof.
  rewrite (candidates_by_edits1 _ _ [lit "a"]);
    [apply list_to_set_singleton_L|by vm_compute..|done].
Qed.

Lemma correction_caxa (U : unicode) (O : set_order) :
  correction U O casa_caso (lit "caxa") = Some (lit "casa").
Proof.
  assert (lower U (lit "caxa") = lit "caxa") as Hlow
      by (rewrite lower_latin1; [by vm_compute|covered_text]).
  rewrite (correction_singleton U O casa_caso (lit "caxa") (lit "casa"));
    [|done|by rewrite Hlow, candidates_caxa].
  simpl. rewrite isupper_latin1 by (left; done). by vm_compute.
Qed.

(** C1, as stated, fails on a capitalized word: with the vocabulary
    [{casa: 10, caso: 1}], [correction "Caxa"] is ["Casa"], which is not one
    of the candidates of ["caxa"]. *)
Lemma correction_returns_no_candidate :
  correction latin1_only elements_order casa_caso (lit "Caxa")
    = Some (lit "Casa") /\
  lit "Casa" ∉ candidates casa_caso (lower latin1_only (lit "Caxa")).
Proof.
  assert (lower latin1_only (lit "Caxa") = lit "caxa") as Hl by by vm_compute.
  split.
  - rewrite (correction_singleton latin1_only elements_order casa_caso
               (lit "Caxa") (lit "casa"));
      [by vm_compute|done|by rewrite Hl, candidates_caxa].
  - rewrite Hl, candidates_caxa. intros H%elem_of_singleton. discriminate.
Qed.

(** C1, amended. For every non-empty input word, [correction] lowercases
    the word, takes its candidates, and selects among them a candidate
    [best] at the smallest edit distance from the lowercased word and, among
    the candidates at that distance, of the highest probability: frequency
    never overrides a closer candidate. It returns [best], capitalized when
    the first character of the input word is uppercase. In particular, with
    the vocabulary [{casa: 10, caso: 1}], [correction "caxa" = "casa"], and
    with [{rato: 5, pato: 2}], [correction "xato" = "rato"]. *)
Theorem correction_distance_then_probability (U : unicode) (O : set_order) :
  (forall (self : Corretor) (word : str),
     word ≠ [] ->
     exists best,
       best ∈ candidates self (lower U word) /\
       (forall c, c ∈ candidates self (lower U word) ->
          Distance.edit_distance (lower U word) best
            <= Distance.edit_distance (lower U word) c) /\
       (forall c, c ∈ candidates self (lower U word) ->
          Distance.edit_distance (lower U word) c
            = Distance.edit_distance (lower U word) best ->
          (P self c <= P self best)%Q) /\
       correction U O self word
         = Some (if isupper U (word !!! 0) then capitalize U best else best))
  /\ correction U O casa_caso (lit "caxa") = Some (lit "casa")
  /\ correction U O rato_pato (lit "xato") = Some (lit "rato").
Proof.
  split_and!.
  - intros self word Hne.
    destruct (correction_selects U O self word Hne)
      as (best & (Hin & Hd & HP) & Hc).
    exists best. split_and!; [done..|]. by destruct word.
  - apply correction_caxa.
  - assert (lower U (lit "xato") = lit "xato") as Hlow
        by (rewrite lower_latin1; [by vm_compute|covered_text]).
    destruct (correction_selects U O rato_pato (lit "xato"))
      as (best & (Hin & _ & HP) & ->); [done|].
    rewrite Hlow in Hin, HP. simpl.
    rewrite isupper_latin1 by (left; done).
    replace (Latin1.is_upper _) with false by by vm_compute.
    rewrite candidates_xato in Hin, HP.
    apply elem_of_list_to_set in Hin.
    apply elem_of_cons in Hin as [->|Hin]; [done|].
    apply list_elem_of_singleton in Hin as ->.
    exfalso. specialize (HP (lit "rato")).
    assert (P rato_pato (lit "rato") <= P rato_pato (lit "pato"))%Q as Hle.
    { apply HP; [apply elem_of_list_to_set; by left|]. by vm_compute. }
    vm_compute in Hle. by apply Hle.
Qed.

(** [correction_distance_then_probability] on the two examples, for the
    tables of Latin-1 and sets iterated in the order of [elements]. *)
Lemma correction_distance_then_probability_witness :
  correction latin1_only elements_order casa_caso (lit "caxa")
    = Some (lit "casa") /\
  correction latin1_only elements_order rato_pato (lit "xato")
    = Some (lit "rato").
Proof.
  exact (proj2 (correction_distance_then_probability
                  latin1_only elements_order)).
Defined.

(** C4, as stated, fails on uppercase letters after the first one: with
    ["casa"] in the vocabulary, [correction "CASA"] is ["Casa"]. *)
Lemma correction_known_word_changes_case :
  lower latin1_only (lit "CASA") ∈ (self_W casa_caso).*1 /\
  correction latin1_only elements_order casa_caso (lit "CASA")
    = Some (lit "Casa") /\
  lit "Casa" ≠ lit "CASA".
Proof.
  assert (lower latin1_only (lit "CASA") ∈ (self_W casa_caso).*1) as Hin
    by (vm_compute; by left).
  split_and!; [exact Hin| |discriminate].
  rewrite correction_known_word by done. by vm_compute.
Qed.

(** C4, amended. For every non-empty word whose lowercase form is in the
    vocabulary, [correction] returns that lowercase form, capitalized when
    the first character of the word is uppercase and as it is otherwise. So
    it returns the word itself when the word, made of letters of the class,
    is in lowercase or is an uppercase letter followed by lowercase; for
    example, with ["casa"] in the vocabulary, [correction "Casa" = "Casa"]
    and [correction "casa" = "casa"]. *)
Theorem correction_known_word_case (U : unicode) (O : set_order)
  (self : Corretor) :
  (forall word : str,
     word ≠ [] ->
     lower U word ∈ (self_W self).*1 ->
     correction U O self word
       = Some (if isupper U (word !!! 0) then capitalize U (lower U word)
               else lower U word) /\
     (fullmatch word = true -> lower_or_capitalized word ->
      correction U O self word = Some word)) /\
  (lit "casa" ∈ (self_W self).*1 ->
   correction U O self (lit "Casa") = Some (lit "Casa") /\
   correction U O self (lit "casa") = Some (lit "casa")).
Proof.
  assert (forall word : str,
            word ≠ [] -> lower U word ∈ (self_W self).*1 ->
            fullmatch word = true -> lower_or_capitalized word ->
            correction U O self word = Some word) as Hfixed.
  { intros word Hne Hin Hm Hform.
    rewrite (correction_known_word U O self word Hne Hin).
    by rewrite recase_lower_fixed. }
  split.
  - intros word Hne Hin. split; [|by apply Hfixed].
    rewrite (correction_known_word U O self word Hne Hin). by destruct word.
  - intros Hin.
    assert (lower U (lit "Casa") = lit "casa") as H1
        by (rewrite lower_latin1; [by vm_compute|covered_text]).
    assert (lower U (lit "casa") = lit "casa") as H2
        by (rewrite lower_latin1; [by vm_compute|covered_text]).
    split; apply Hfixed; rewrite ?H1, ?H2; try done.
    + right. by exists 67%N, (lit "asa").
    + by left.
Qed.

(** [correction_known_word_case] at the word ["Casa"] and the vocabulary
    [{casa: 10, caso: 1}]. *)
Lemma correction_known_word_case_witness :
  (lit "casa" ∈ (self_W casa_caso).*1) /\
  correction latin1_only elements_order casa_caso (lit "Casa")
    = Some (lit "Casa") /\
  correction latin1_only elements_order casa_caso (lit "casa")
    = Some (lit "casa").
Proof.
  assert (lit "casa" ∈ (self_W casa_caso).*1) as H by (vm_compute; by left).
  split; [exact H|].
  exact (proj2 (correction_known_word_case latin1_only elements_order
                  casa_caso) H).
Defined.

(** C10, as stated, fails on the sharp s: with the vocabulary [{ßa: 1}],
    [correction "Aßa"] selects ["ßa"] and capitalizes it to ["Ssa"], whose
    lowercase form ["ssa"] is neither in the vocabulary nor the lowercase
    form ["aßa"] of the input. *)
Lemma correction_invents_a_string :
  correction latin1_only elements_order (with_counts [([223; 97]%N, 1%Z)])
    (lit "A" ++ [223; 97]%N) = Some (lit "Ssa") /\
  (lower latin1_only (lit "Ssa")
     ∉ (self_W (with_counts [([223; 97]%N, 1%Z)])).*1) /\
  lower latin1_only (lit "Ssa") ≠ lower latin1_only (lit "A" ++ [223; 97]%N).
Proof.
  split_and!; [| |by vm_compute].
  - rewrite (correction_singleton latin1_only elements_order _ _
               [223; 97]%N); [by vm_compute|done|].
    replace (lower latin1_only (lit "A" ++ [223; 97]%N))
      with [97; 223; 97]%N by by vm_compute.
    apply candidates_sharp_s.
  - vm_compute. intros H. apply elem_of_cons in H as [H|H]; [discriminate|].
    by apply elem_of_nil in H.
Qed.

(** Restoring the capital of a lowercase word of the class changes no
    letter, unless the word starts with the sharp s. *)
Lemma lower_recase_candidate (U : unicode) (word c : str) :
  fullmatch word = true -> fullmatch c = true -> Latin1.lower c = c ->
  ~ (isupper U (word !!! 0) = true /\ c !! 0 = Some 223%N) ->
  lower U (recase U word c) = c.
Proof.
  intros [Hwne Hw%class_word_covered]%fullmatch_spec
         [Hcne Hcl]%fullmatch_spec Hlow Hss.
  pose proof (class_word_covered c Hcl) as Hcov.
  destruct word as [|w0 w']; [done|]. simpl in *.
  destruct (isupper U w0); [|by rewrite lower_latin1].
  rewrite capitalize_latin1 by done.
  destruct c as [|c0 t]; [done|]. simpl in *.
  injection Hlow as Hc0 Ht. fold (Latin1.lower t) in Ht.
  apply Forall_cons in Hcl as [Hc0cl _]. apply Forall_cons in Hcov as [_ Ht'].
  destruct (to_title_lowers_back c0 Hc0cl Hc0) as (c' & -> & Hc' & Hl).
  { intros ->. by apply Hss. }
  simpl. rewrite lower_latin1.
  - change (Latin1.to_lower c' :: Latin1.lower (Latin1.lower t) = c0 :: t).
    by rewrite Hl, lower_idem, Ht.
  - constructor; [done|]. fold (Latin1.lower t). by apply lower_covered.
Qed.

(** C10, amended. For every vocabulary and every non-empty input word,
    [correction] returns a candidate [c], capitalized when the first
    character of the input is uppercase, where [c] is a vocabulary word or
    the lowercase form of the input. For a vocabulary of lowercase words of
    the class and an input word of the class, the lowercase form of the
    result is [c] itself, unless the input starts with an uppercase letter
    and [c] with the sharp s. *)
Theorem correction_vocabulary_or_input (U : unicode) (O : set_order)
  (self : Corretor) (word : str) :
  word ≠ [] ->
  exists c,
    (c ∈ (self_W self).*1 \/ c = lower U word) /\
    correction U O self word
      = Some (if isupper U (word !!! 0) then capitalize U c else c) /\
    ((forall k, k ∈ (self_W self).*1 ->
        fullmatch k = true /\ Latin1.lower k = k) ->
     fullmatch word = true ->
     ~ (isupper U (word !!! 0) = true /\ c !! 0 = Some 223%N) ->
     exists r, correction U O self word = Some r /\ lower U r = c).
Proof.
  intros Hne.
  destruct (correction_selects U O self word Hne) as (c & (Hin & _) & Hc).
  exists c. apply candidates_subset in Hin.
  assert (recase U word c
          = if isupper U (word !!! 0) then capitalize U c else c) as Hre
    by by destruct word.
  split_and!; [done|by rewrite Hc, Hre|].
  intros Hwf Hm Hss. exists (recase U word c). split; [done|].
  pose proof Hm as [_ Hcov%class_word_covered]%fullmatch_spec.
  assert (fullmatch c = true /\ Latin1.lower c = c) as [Hcm Hcl].
  { destruct Hin as [Hin| ->]; [by apply Hwf|].
    rewrite lower_latin1 by done. split; [by apply lower_class|].
    apply lower_idem. }
  by apply lower_recase_candidate.
Qed.

(** [correction_vocabulary_or_input] at the word ["Caxa"] and the
    vocabulary [{casa: 10, caso: 1}]. *)
Lemma correction_vocabulary_or_input_witness :
  lit "Caxa" ≠ [] /\
  exists c,
    (c ∈ (self_W casa_caso).*1 \/ c = lower latin1_only (lit "Caxa")) /\
    correction latin1_only elements_order casa_caso (lit "Caxa")
      = Some (if isupper latin1_only (lit "Caxa" !!! 0)
              then capitalize latin1_only c else c).
Proof.
  assert (lit "Caxa" ≠ []) as H by discriminate.
  split; [exact H|].
  destruct (correction_vocabulary_or_input latin1_only elements_order
              casa_caso (lit "Caxa") H) as (c & H1 & H2 & _).
  exists c. split; [exact H1|exact H2].
Defined.

(** ** The sentence claims *)

Section SentenceParts.
Context (U : unicode) (O : set_order).

Lemma pieces_fixed (self : Corretor) (parts : list str) :
  (forall p, p ∈ parts -> fullmatch p = true ->
     correction U O self p = Some p) ->
  piece U O self <$> parts = parts.
Proof.
  intros H. induction parts as [|p parts IH]; [done|].
  rewrite fmap_cons, IH by (intros q Hq; apply H; by right).
  f_equal. unfold piece, corrected.
  destruct (fullmatch p) eqn:Hp; [|done].
  by rewrite H by (done || by left).
Qed.

Lemma changes_none (self : Corretor) (parts : list str) (m : gmap str str) :
  (forall p, p ∈ parts -> fullmatch p = true ->
     lower U (corrected U O self p) = lower U p) ->
  foldl (record_change U O self) m parts = m.
Proof.
  intros H. apply map_eq. intros k. rewrite lookup_changes.
  rewrite decide_False; [done|]. intros [Hin [Hm Hd]]. by apply Hd, H.
Qed.

(** The parts of the output, in the places of the parts of the input. *)
Lemma correct_sentence_parts (self : Corretor) (text : str) :
  exists out m,
    correct_sentence U O self text = Some (concat out, m) /\
    length out = length (re_split U text) /\
    forall i p, re_split U text !! i = Some p ->
      (fullmatch p = true -> out !! i = correction U O self p) /\
      (fullmatch p = false -> out !! i = Some p).
Proof.
  exists (piece U O self <$> re_split U text),
         (foldl (record_change U O self) ∅ (re_split U text)).
  split_and!; [apply correct_sentence_eq|by rewrite length_fmap|].
  intros i p Hp. rewrite list_lookup_fmap, Hp. simpl. unfold piece.
  split; intros ->; [by rewrite correction_corrected|done].
Qed.

Lemma correct_sentence_unchanged (self : Corretor) (text : str) :
  (forall p, p ∈ re_split U text -> fullmatch p = true ->
     correction U O self p = Some p) ->
  correct_sentence U O self text = Some (text, ∅).
Proof.
  intros H. rewrite correct_sentence_eq, pieces_fixed, concat_re_split by done.
  rewrite changes_none; [done|]. intros p Hin Hm.
  unfold corrected. by rewrite H.
Qed.

End SentenceParts.

(** C5, as stated, fails on a mixed token: with the vocabulary [{ola: 1}],
    the letters of ["olx123"] are not corrected by [correct_sentence], while
    the splitting the specification describes corrects them to ["ola"]. *)
Lemma correct_sentence_keeps_mixed_token :
  correct_sentence latin1_only elements_order (with_counts [(lit "ola", 1%Z)])
    (lit "olx123") = Some (lit "olx123", ∅) /\
  spec_correct_sentence latin1_only elements_order
    (with_counts [(lit "ola", 1%Z)]) (lit "olx123")
    = Some (lit "ola123", {[ lit "olx" := lit "ola" ]}).
Proof.
  split.
  - apply correct_sentence_unchanged. intros p Hp Hm. exfalso.
    vm_compute in Hp. apply elem_of_cons in Hp as [->|Hp]; [discriminate|].
    by apply elem_of_nil in Hp.
  - assert (correction latin1_only elements_order
              (with_counts [(lit "ola", 1%Z)]) (lit "olx") = Some (lit "ola"))
      as Hc.
    { rewrite (correction_singleton latin1_only elements_order _ _
                 (lit "ola")); [by vm_compute|done|].
      replace (lower latin1_only (lit "olx")) with (lit "olx")
        by by vm_compute.
      apply candidates_olx. }
    unfold spec_correct_sentence.
    replace (spec_runs (lit "olx123"))
      with [(true, lit "olx"); (false, lit "123")] by by vm_compute.
    cbn [spec_sentence_loop]. rewrite Hc. by vm_compute.
Qed.

(** C5, amended. For every input text, [correct_sentence] splits the text
    at the maximal runs of non-word characters: the parts, concatenated,
    are the text; the parts at even places hold word characters only, and
    are empty only at the ends; the parts at odd places are non-empty and
    hold no word character. A run of word characters is passed to
    [correction] when it is made of letters of the class [[A-Za-zÀ-ÿ]]
    only; every part that holds a character outside the class is appended
    as it is. In particular a mixed token such as ["ola123"] is one part,
    appended unchanged, whatever the vocabulary. *)
Theorem correct_sentence_splits_at_nonword_runs (U : unicode) (O : set_order)
  (self : Corretor) (text : str) :
  concat (re_split U text) = text /\
  (forall i p, re_split U text !! i = Some p ->
     if Nat.even i
     then Forall (fun c => isword U c = true) p /\
          (p = [] -> i = 0 \/ S i = length (re_split U text))
     else p ≠ [] /\ Forall (fun c => isword U c = false) p) /\
  (exists out m,
     correct_sentence U O self text = Some (concat out, m) /\
     length out = length (re_split U text) /\
     forall i p, re_split U text !! i = Some p ->
       (Nat.even i = true -> fullmatch p = true ->
        out !! i = correction U O self p) /\
       (fullmatch p = false -> out !! i = Some p)) /\
  correct_sentence U O self (lit "ola123") = Some (lit "ola123", ∅).
Proof.
  split_and!.
  - apply concat_re_split.
  - intros i p Hp.
    pose proof (split_from_shape U text false [] (Forall_nil_2 _) i p Hp)
      as H. simpl in H. destruct (Nat.even i); [|done].
    destruct H as [HF He]. split; [done|]. intros Hnil.
    destruct (He Hnil) as [[? _]|?]; [by left|by right].
  - destruct (correct_sentence_parts U O self text) as (out & m & H1 & H2 & H3).
    exists out, m. split_and!; [done..|]. intros i p Hp.
    destruct (H3 i p Hp). split; [by intros _|done].
  - apply correct_sentence_unchanged. intros p Hp Hm. exfalso.
    unfold re_split in Hp. rewrite split_from_latin1 in Hp by covered_text.
    vm_compute in Hp. apply elem_of_cons in Hp as [->|Hp]; [discriminate|].
    by apply elem_of_nil in Hp.
Qed.





(** C8, as stated, fails on uppercase letters: with the empty vocabulary,
    [correction "CASA"] is ["Casa"], and [correct_sentence "CASA"] returns
    the text ["Casa"] with an empty change map. *)
Lemma empty_vocabulary_changes_case :
  self_W (init latin1_only None 1) = [] /\
  correction latin1_only elements_order (init latin1_only None 1)
    (lit "CASA") = Some (lit "Casa") /\
  correct_sentence latin1_only elements_order (init latin1_only None 1)
    (lit "CASA") = Some (lit "Casa", ∅) /\
  lit "Casa" ≠ lit "CASA".
Proof.
  assert (correction latin1_only elements_order (init latin1_only None 1)
            (lit "CASA") = Some (lit "Casa")) as Hc.
  { rewrite correction_empty_vocabulary by done. by vm_compute. }
  split_and!; [reflexivity|exact Hc| |discriminate].
  rewrite (correct_sentence_eval latin1_only elements_order _
             (lit "CASA") [lit "CASA"] [lit "Casa"]).
  - by vm_compute.
  - by vm_compute.
  - apply List.Forall2_cons; [|apply List.Forall2_nil].
    left. split; [reflexivity|exact Hc].
Qed.

(** C8, amended. If the vocabulary is empty then, for every word,
    [candidates] finds no known word among [edits1] and [edits2], its full
    scan finds nothing, and it returns the word itself. [correction] then
    returns the lowercase form of the word, capitalized when the first
    character of the word is uppercase: the word itself when the word is in
    lowercase, or is an uppercase letter followed by lowercase.
    [correct_sentence] returns an empty change map for every text, and the
    text unchanged when all its word-runs have one of these two shapes. *)
Theorem empty_vocabulary_corrections (U : unicode) (O : set_order)
  (self : Corretor) :
  self_W self = [] ->
  (forall word : str,
     known self (edits1 word) = ∅ /\ known self (edits2 word) = ∅ /\
     _closest_by_edit_distance self word = None /\
     candidates self word = {[ word ]}) /\
  (forall word : str,
     word ≠ [] ->
     correction U O self word
       = Some (if isupper U (word !!! 0) then capitalize U (lower U word)
               else lower U word)) /\
  (forall word : str,
     fullmatch word = true -> lower_or_capitalized word ->
     correction U O self word = Some word) /\
  (forall text : str,
     exists c, correct_sentence U O self text = Some (c, ∅)) /\
  (forall text : str,
     (forall p, p ∈ re_split U text -> fullmatch p = true ->
        lower_or_capitalized p) ->
     correct_sentence U O self text = Some (text, ∅)).
Proof.
  intros HW.
  assert (forall word : str,
            fullmatch word = true -> lower_or_capitalized word ->
            correction U O self word = Some word) as Hfixed.
  { intros word Hm Hform.
    rewrite correction_empty_vocabulary; [|by destruct word|done].
    by rewrite recase_lower_fixed. }
  split_and!.
  - intros word. split_and!; [by apply known_empty..| |].
    + unfold _closest_by_edit_distance. by rewrite HW.
    + by apply candidates_empty_vocabulary.
  - intros word Hne. rewrite correction_empty_vocabulary by done.
    by destruct word.
  - exact Hfixed.
  - intros text. eexists. rewrite correct_sentence_eq.
    rewrite changes_none; [done|]. intros p _ Hm. unfold corrected.
    rewrite correction_empty_vocabulary; [|by destruct p|done].
    by apply lower_recase_lower.
  - intros text Hform. apply correct_sentence_unchanged.
    intros p Hp Hm. apply Hfixed; [done|by apply Hform].
Qed.

(** [empty_vocabulary_corrections] at the instance built without a corpus
    and the text ["Casa, casa"]. *)
Lemma empty_vocabulary_corrections_witness :
  self_W (init latin1_only None 1) = [] /\
  candidates (init latin1_only None 1) (lit "casa") = {[ lit "casa" ]} /\
  exists c,
    correct_sentence latin1_only elements_order (init latin1_only None 1)
      (lit "Casa, casa") = Some (c, ∅).
Proof.
  assert (self_W (init latin1_only None 1) = []) as H by reflexivity.
  pose proof (empty_vocabulary_corrections latin1_only elements_order
                (init latin1_only None 1) H) as (H1 & _ & _ & H4 & _).
  split; [exact H|]. split; [apply H1|apply H4].
Defined.

(** C9 fails on a text with a multiplication sign, which is a separator for
    the split and a letter for [_WORD_RE]. With the vocabulary of the corpus
    ["ab cd a abacd"], [correct_sentence] turns ["Ab×Cd"] into ["AbaCd"],
    whose only word-run is in the vocabulary once lowercased; applied to
    that output it returns ["Abacd"], another text. *)
Theorem correct_sentence_not_idempotent :
  init latin1_only (Some (lit "ab cd a abacd")) 1 = abacd /\
  correct_sentence latin1_only elements_order abacd
    (lit "Ab" ++ [215%N] ++ lit "Cd")
    = Some (lit "AbaCd", {[ [215%N] := lit "a" ]}) /\
  re_split latin1_only (lit "AbaCd") = [lit "AbaCd"] /\
  fullmatch (lit "AbaCd") = true /\
  lower latin1_only (lit "AbaCd") ∈ (self_W abacd).*1 /\
  correct_sentence latin1_only elements_order abacd (lit "AbaCd")
    = Some (lit "Abacd", ∅).
Proof.
  assert (forall w r : str,
            w ≠ [] -> lower latin1_only w ∈ (self_W abacd).*1 ->
            recase latin1_only w (lower latin1_only w) = r ->
            correction latin1_only elements_order abacd w = Some r) as Hknown.
  { intros w r Hne Hin <-. by apply correction_known_word. }
  assert (correction latin1_only elements_order abacd (lit "Ab")
            = Some (lit "Ab")) as HAb
    by (apply Hknown; [done|vm_compute; by left|by vm_compute]).
  assert (correction latin1_only elements_order abacd (lit "Cd")
            = Some (lit "Cd")) as HCd
    by (apply Hknown; [done|vm_compute; right; by left|by vm_compute]).
  assert (correction latin1_only elements_order abacd (lit "AbaCd")
            = Some (lit "Abacd")) as HAbaCd
    by (apply Hknown; [done|vm_compute; do 3 right; by left|by vm_compute]).
  assert (correction latin1_only elements_order abacd [215%N]
            = Some (lit "a")) as Hx.
  { rewrite (correction_singleton latin1_only elements_order _ _ (lit "a"));
      [by vm_compute|done|].
    replace (lower latin1_only [215%N]) with [215%N] by by vm_compute.
    apply candidates_multiplication_sign. }
  split_and!.
  - apply abacd_vocabulary.
  - rewrite (correct_sentence_eval latin1_only elements_order abacd
               (lit "Ab" ++ [215%N] ++ lit "Cd")
               [lit "Ab"; [215%N]; lit "Cd"] [lit "Ab"; lit "a"; lit "Cd"]).
    + by vm_compute.
    + by vm_compute.
    + repeat (apply List.Forall2_cons; [left; split; [reflexivity|]|]);
        [exact HAb|exact Hx|exact HCd|apply List.Forall2_nil].
  - by vm_compute.
  - by vm_compute.
  - vm_compute. do 3 right. by left.
  - rewrite (correct_sentence_eval latin1_only elements_order abacd
               (lit "AbaCd") [lit "AbaCd"] [lit "Abacd"]).
    + by vm_compute.
    + by vm_compute.
    + apply List.Forall2_cons; [|apply List.Forall2_nil].
      left. split; [reflexivity|exact HAbaCd].
Qed.

(** * Further properties of the code *)

(** ** [edit_distance] is a metric *)

Section DistanceMetric.
Import Distance.

Lemma edits_app n m a b c : edits n a b -> edits m b c -> edits (n + m) a c.
Proof.
  induction 1 as [|n a b' b Hab _ IH]; intros Hbc; simpl; [done|].
  eapply edits_S; [exact Hab|by apply IH].
Qed.

Lemma lev_triangle a b c : lev a c <= lev a b + lev b c.
Proof. apply edits_lev. eapply edits_app; apply lev_edits. Qed.

Lemma lev_zero a b : lev a b = 0 -> a = b.
Proof.
  intros H. pose proof (lev_edits a b) as He. rewrite H in He.
  by inversion He.
Qed.

Lemma one_edit_length a b :
  one_edit a b -> length a <= length b + 1 /\ length b <= length a + 1.
Proof. destruct 1; rewrite !length_app; simpl; lia. Qed.

Lemma edits_length n a b :
  edits n a b -> length a <= length b + n /\ length b <= length a + n.
Proof.
  induction 1 as [|n a b c Hab%one_edit_length _ IH]; lia.
Qed.

Lemma lev_le_max a b : lev a b <= Nat.max (length a) (length b).
Proof.
  revert b. induction a as [|x a IHa]; intros b; [simpl; lia|].
  destruct b as [|y b]; [simpl; lia|].
  rewrite lev_cons. specialize (IHa b).
  pose proof (min3_cases (lev a (y :: b) + 1) (lev (x :: a) b + 1)
                (lev a b + if decide (x = y) then 0 else 1)) as (_ & _ & _ & H).
  simpl length. case_decide; lia.
Qed.

(** X1. [edit_distance] is 0 between equal strings only. *)
Theorem edit_distance_zero_iff_equal (a b : str) :
  edit_distance a b = 0 <-> a = b.
Proof.
  rewrite edit_distance_lev. split; [apply lev_zero|].
  intros ->. apply lev_refl.
Qed.

(** X2. [edit_distance] satisfies the triangle inequality. *)
Theorem edit_distance_triangle (a b c : str) :
  edit_distance a c <= edit_distance a b + edit_distance b c.
Proof. rewrite !edit_distance_lev. apply lev_triangle. Qed.

(** X3. [edit_distance] is at least the difference of the two lengths and
    at most the greater length. *)
Theorem edit_distance_length_bounds (a b : str) :
  length a - length b <= edit_distance a b /\
  length b - length a <= edit_distance a b /\
  edit_distance a b <= Nat.max (length a) (length b).
Proof.
  rewrite edit_distance_lev.
  pose proof (edits_length _ _ _ (lev_edits a b)).
  pose proof (lev_le_max a b). lia.
Qed.

End DistanceMetric.

(** ** [edits1] and [edits2] *)

Section EditsFacts.
Import Distance.

Lemma splits_spec (word L R : str) : (L, R) ∈ splits word <-> word = L ++ R.
Proof.
  unfold splits. rewrite list_elem_of_fmap. split.
  - intros (i & [= -> ->] & _). by rewrite take_drop.
  - intros ->. exists (length L). split.
    + by rewrite take_app_length, drop_app_length.
    + apply elem_of_seq. rewrite length_app. lia.
Qed.

Lemma elem_of_deletes (word w : str) :
  w ∈ deletes word <-> exists L c R, word = L ++ c :: R /\ w = L ++ R.
Proof.
  unfold deletes. rewrite list_elem_of_bind. split.
  - intros ([L R] & Hw & ->%splits_spec). destruct R as [|c R].
    + by apply elem_of_nil in Hw.
    + apply list_elem_of_singleton in Hw. simpl in Hw. rewrite drop_0 in Hw.
      by exists L, c, R.
  - intros (L & c & R & -> & ->). exists (L, c :: R).
    split; [|by apply splits_spec]. simpl. rewrite drop_0. by left.
Qed.

Lemma elem_of_transposes (word w : str) :
  w ∈ transposes word <->
  exists L a b R, word = L ++ a :: b :: R /\ w = L ++ b :: a :: R.
Proof.
  unfold transposes. rewrite list_elem_of_bind. split.
  - intros ([L R] & Hw & ->%splits_spec). destruct R as [|a [|b R]].
    + by apply elem_of_nil in Hw.
    + by apply elem_of_nil in Hw.
    + apply list_elem_of_singleton in Hw. by exists L, a, b, R.
  - intros (L & a & b & R & -> & ->). exists (L, a :: b :: R).
    split; [|by apply splits_spec]. by left.
Qed.

Lemma elem_of_replaces (word w : str) :
  w ∈ replaces word <->
  exists L c d R, word = L ++ c :: R /\ d ∈ _LETTERS /\ w = L ++ d :: R.
Proof.
  unfold replaces. rewrite list_elem_of_bind. split.
  - intros ([L R] & Hw & ->%splits_spec). destruct R as [|c R].
    + by apply elem_of_nil in Hw.
    + apply list_elem_of_bind in Hw as (d & Hw & Hd).
      apply list_elem_of_singleton in Hw. simpl in Hw. rewrite drop_0 in Hw.
      by exists L, c, d, R.
  - intros (L & c & d & R & -> & Hd & ->). exists (L, c :: R).
    split; [|by apply splits_spec]. apply list_elem_of_bind.
    exists d. split; [|done]. simpl. rewrite drop_0. by left.
Qed.

Lemma elem_of_inserts (word w : str) :
  w ∈ inserts word <->
  exists L d R, word = L ++ R /\ d ∈ _LETTERS /\ w = L ++ d :: R.
Proof.
  unfold inserts. rewrite list_elem_of_bind. split.
  - intros ([L R] & Hw & ->%splits_spec).
    apply list_elem_of_bind in Hw as (d & Hw & Hd).
    apply list_elem_of_singleton in Hw. by exists L, d, R.
  - intros (L & d & R & -> & Hd & ->). exists (L, R).
    split; [|by apply splits_spec]. apply list_elem_of_bind.
    exists d. split; [by left|done].
Qed.

Lemma one_edit_lev a b : one_edit a b -> lev a b <= 1.
Proof.
  intros H. apply edits_lev. eapply edits_S; [exact H|apply edits_0].
Qed.

Lemma transpose_lev L a b R : lev (L ++ a :: b :: R) (L ++ b :: a :: R) <= 2.
Proof.
  apply edits_lev. eapply edits_S; [apply (edit_substitute L a b)|].
  eapply edits_S; [|apply edits_0].
  replace (L ++ b :: b :: R) with ((L ++ [b]) ++ b :: R)
    by by rewrite <- app_assoc.
  replace (L ++ b :: a :: R) with ((L ++ [b]) ++ a :: R)
    by by rewrite <- app_assoc.
  apply edit_substitute.
Qed.

Lemma elem_of_edits1_list (word w : str) :
  w ∈ edits1 word <->
  w ∈ deletes word \/ w ∈ transposes word \/ w ∈ replaces word \/
  w ∈ inserts word.
Proof.
  unfold edits1, edits1_list. by rewrite elem_of_list_to_set, !elem_of_app.
Qed.

Lemma edits1_lev (word w : str) :
  w ∈ edits1 word ->
  lev word w <= 2 /\ (w ∉ transposes word -> lev word w <= 1).
Proof.
  rewrite elem_of_edits1_list.
  intros [(L & c & R & -> & ->)%elem_of_deletes|
          [Ht|[(L & c & d & R & -> & _ & ->)%elem_of_replaces|
               (L & d & R & -> & _ & ->)%elem_of_inserts]]].
  - pose proof (one_edit_lev _ _ (edit_delete L c R)). lia.
  - split; [|done].
    apply elem_of_transposes in Ht as (L & a & b & R & -> & ->).
    apply transpose_lev.
  - pose proof (one_edit_lev _ _ (edit_substitute L c d R)). lia.
  - pose proof (one_edit_lev _ _ (edit_insert L d R)). lia.
Qed.

Lemma lev_cons_same c x y : lev (c :: x) (c :: y) = lev x y.
Proof.
  rewrite lev_cons, decide_True by done.
  pose proof (lev_one_edit x (c :: y) y (edit_delete [] c y)) as H1.
  pose proof (lev_one_edit y (c :: x) x (edit_delete [] c x)) as H2.
  rewrite (lev_sym y x), (lev_sym y (c :: x)) in H2.
  unfold min3. lia.
Qed.

Lemma lev_app_same L x y : lev (L ++ x) (L ++ y) = lev x y.
Proof.
  induction L as [|c L IH]; [done|]. simpl app. by rewrite lev_cons_same.
Qed.

Lemma lev_pos a b : a ≠ b -> 1 <= lev a b.
Proof.
  intros Hne. destruct (lev a b) eqn:H; [|lia]. by apply lev_zero in H.
Qed.

Lemma transpose_lev_exact L a b R :
  a ≠ b -> lev (L ++ a :: b :: R) (L ++ b :: a :: R) = 2.
Proof.
  intros Hab. apply Nat.le_antisymm; [apply transpose_lev|].
  rewrite lev_app_same, lev_cons, decide_False by done.
  rewrite lev_cons_same. rewrite (lev_cons_same a (b :: R) R).
  assert (1 <= lev R (a :: R)).
  { apply lev_pos. intros HR. apply (f_equal length) in HR. simpl in HR. lia. }
  assert (1 <= lev (b :: R) R).
  { apply lev_pos. intros HR. apply (f_equal length) in HR. simpl in HR. lia. }
  assert (1 <= lev (b :: R) (a :: R)).
  { apply lev_pos. congruence. }
  unfold min3. lia.
Qed.

Lemma edits1_length (word w : str) :
  w ∈ edits1 word ->
  length word <= length w + 1 /\ length w <= length word + 1.
Proof.
  intros [(L & c & R & -> & ->)%elem_of_deletes|
          [(L & a & b & R & -> & ->)%elem_of_transposes|
           [(L & c & d & R & -> & _ & ->)%elem_of_replaces|
            (L & d & R & -> & _ & ->)%elem_of_inserts]]]%elem_of_edits1_list;
    rewrite !length_app; simpl; lia.
Qed.

(** X4. [edits1] holds exactly the strings obtained from the word by
    deleting one character, swapping two adjacent characters, replacing one
    character by a letter of [_LETTERS], or inserting a letter of
    [_LETTERS]. *)
Theorem edits1_membership (word w : str) :
  w ∈ edits1 word <->
  (exists L c R, word = L ++ c :: R /\ w = L ++ R) \/
  (exists L a b R, word = L ++ a :: b :: R /\ w = L ++ b :: a :: R) \/
  (exists L c d R, word = L ++ c :: R /\ d ∈ _LETTERS /\ w = L ++ d :: R) \/
  (exists L d R, word = L ++ R /\ d ∈ _LETTERS /\ w = L ++ d :: R).
Proof.
  rewrite elem_of_edits1_list.
  by rewrite elem_of_deletes, elem_of_transposes, elem_of_replaces,
    elem_of_inserts.
Qed.

(** X5. Every string of [edits1 word] is within two edits of the word, and
    within one unless it is a swap of adjacent characters; its length
    differs from the word's by at most one. *)
Theorem edits1_within_two_edits (word w : str) :
  w ∈ edits1 word ->
  edit_distance word w <= 2 /\
  (w ∉ transposes word -> edit_distance word w <= 1) /\
  length word - 1 <= length w <= length word + 1.
Proof.
  intros Hw. rewrite edit_distance_lev.
  destruct (edits1_lev word w Hw) as [H2 H1].
  pose proof (edits1_length word w Hw). split_and!; [done|done|lia|lia].
Qed.

(** X6. A swap of two different adjacent characters is two edits away:
    [edit_distance] has no transposition of its own. *)
Theorem transposition_distance_two (L R : str) (a b : N) :
  a ≠ b -> edit_distance (L ++ a :: b :: R) (L ++ b :: a :: R) = 2.
Proof. intros H. rewrite edit_distance_lev. by apply transpose_lev_exact. Qed.

(** X7. Every string of [edits2 word] is within four edits of the word, and
    its length differs from the word's by at most two. *)
Theorem edits2_within_four_edits (word w : str) :
  w ∈ edits2 word ->
  edit_distance word w <= 4 /\
  length word - 2 <= length w <= length word + 2.
Proof.
  unfold edits2. intros (e & He & Hw)%elem_of_set_bind.
  destruct (edits1_lev word e He) as [H1 _].
  destruct (edits1_lev e w Hw) as [H2 _].
  pose proof (edits1_length word e He). pose proof (edits1_length e w Hw).
  rewrite edit_distance_lev. pose proof (lev_triangle word e w). lia.
Qed.

End EditsFacts.

(** [edits1_within_two_edits] at the swap of the middle letters of
    ["casa"]. *)
Lemma edits1_within_two_edits_witness :
  lit "csaa" ∈ edits1 (lit "casa") /\
  Distance.edit_distance (lit "casa") (lit "csaa") <= 2.
Proof.
  assert (lit "csaa" ∈ edits1 (lit "casa")) as H.
  { apply elem_of_edits1_list. right. left. apply elem_of_transposes.
    by exists (lit "c"), 97%N, 115%N, (lit "a"). }
  split; [exact H|]. apply (edits1_within_two_edits _ _ H).
Defined.

(** [transposition_distance_two] at ["casa"] and ["csaa"]. *)
Lemma transposition_distance_two_witness :
  Distance.edit_distance (lit "casa") (lit "csaa") = 2.
Proof.
  apply (transposition_distance_two (lit "c") (lit "a") 97%N 115%N).
  by vm_compute.
Defined.

(** [edits2_within_four_edits] at ["casa"] with its two vowels deleted. *)
Lemma edits2_within_four_edits_witness :
  lit "cs" ∈ edits2 (lit "casa") /\
  Distance.edit_distance (lit "casa") (lit "cs") <= 4.
Proof.
  assert (lit "cs" ∈ edits2 (lit "casa")) as H.
  { unfold edits2. apply elem_of_set_bind. exists (lit "csa").
    split; apply elem_of_edits1_list; left; apply elem_of_deletes.
    - by exists (lit "c"), 97%N, (lit "sa").
    - by exists (lit "cs"), 97%N, [].  }
  split; [exact H|]. apply (edits2_within_four_edits _ _ H).
Defined.

(** ** The number of strings [edits1] builds *)

Section EditsSize.

Lemma splits_cons (x : N) (word : str) :
  splits (x :: word)
    = ([], x :: word) :: ((fun LR => (x :: LR.1, LR.2)) <$> splits word).
Proof.
  unfold splits. cbn [length Nat.add seq]. rewrite fmap_cons. f_equal.
  by rewrite <- fmap_S_seq, <- !list_fmap_compose.
Qed.

Lemma length_bind_fmap {A B} (g : A -> A) (f : A -> list B) (l : list A) :
  (forall y, length (f (g y)) = length (f y)) ->
  length ((g <$> l) ≫= f) = length (l ≫= f).
Proof.
  intros H. induction l as [|y l IH]; [done|].
  rewrite fmap_cons, !bind_cons, !length_app, IH. by rewrite H.
Qed.

Lemma length_bind_splits (f : str * str -> list str) (x : N) (word : str) :
  (forall L R, length (f (x :: L, R)) = length (f (L, R))) ->
  length (splits (x :: word) ≫= f)
    = length (f ([], x :: word)) + length (splits word ≫= f).
Proof.
  intros H. rewrite splits_cons, bind_cons, length_app. f_equal.
  apply length_bind_fmap. intros [L R]. apply H.
Qed.

Lemma length_bind_singleton {A B} (g : A -> B) (l : list A) :
  length (l ≫= fun c => [g c]) = length l.
Proof.
  induction l as [|y l IH]; [done|]. rewrite bind_cons. simpl. by rewrite IH.
Qed.

Lemma length_deletes (word : str) : length (deletes word) = length word.
Proof.
  induction word as [|x word IH]; [done|]. unfold deletes in *.
  rewrite length_bind_splits; [by rewrite IH|].
  intros L R. by destruct R.
Qed.

Lemma length_transposes (word : str) :
  length (transposes word) = length word - 1.
Proof.
  induction word as [|x word IH]; [done|]. unfold transposes in *.
  rewrite length_bind_splits; [|intros L R; by destruct R as [|? [|? ?]]].
  rewrite IH. destruct word; simpl; lia.
Qed.

Lemma length_replaces (word : str) :
  length (replaces word) = length _LETTERS * length word.
Proof.
  induction word as [|x word IH]; [done|]. unfold replaces in *.
  rewrite length_bind_splits.
  - rewrite IH, length_bind_singleton. simpl length. lia.
  - intros L R. destruct R; [done|]. by rewrite !length_bind_singleton.
Qed.

Lemma length_inserts (word : str) :
  length (inserts word) = length _LETTERS * (length word + 1).
Proof.
  induction word as [|x word IH].
  - unfold inserts. change (splits []) with [([] : str, [] : str)].
    rewrite bind_cons, length_app, length_bind_singleton. simpl. lia.
  - unfold inserts in *. rewrite length_bind_splits.
    + rewrite IH, length_bind_singleton. simpl length. lia.
    + intros L R. by rewrite !length_bind_singleton.
Qed.

Lemma size_list_to_set_le (l : list str) :
  size (list_to_set l : gset str) <= length l.
Proof.
  induction l as [|x l IH]; [done|].
  rewrite list_to_set_cons, size_union_alt, size_singleton. simpl.
  assert (size (list_to_set l ∖ {[x]} : gset str)
            <= size (list_to_set l : gset str))
    by by apply subseteq_size, subseteq_difference_l.
  lia.
Qed.

(** X8. [edits1] builds [80 * n + 38] strings for a word of [n > 0]
    characters, and 39 for the empty word, so the set holds no more. *)
Theorem edits1_size (word : str) :
  length (edits1_list word)
    = 80 * length word + 39 - (if word is [] then 0 else 1) /\
  size (edits1 word) <= 80 * length word + 39.
Proof.
  assert (length (edits1_list word)
            = 80 * length word + 39 - (if word is [] then 0 else 1)) as Hl.
  { unfold edits1_list.
    rewrite !length_app, length_deletes, length_transposes, length_replaces,
      length_inserts.
    change (length _LETTERS) with 39. destruct word; simpl length; lia. }
  split; [done|]. unfold edits1.
  pose proof (size_list_to_set_le (edits1_list word)). lia.
Qed.

End EditsSize.

(** ** The candidates and the vocabulary *)

Section CandidateLevels.
Import Distance.
Context (U : unicode) (O : set_order).

(** The scan of [_closest_by_edit_distance] keeps the first key among the
    nearest ones. *)
Lemma closest_loop_first word keys best :
  (forall b bd, best = Some (b, bd) -> bd = edit_distance word b) ->
  match closest_loop word keys best with
  | None => best = None /\ keys = []
  | Some (v, dv) =>
      dv = edit_distance word v /\
      (forall w, w ∈ keys -> dv <= edit_distance word w) /\
      (forall b bd, best = Some (b, bd) -> dv <= bd) /\
      (best = Some (v, dv) \/
       (forall b bd, best = Some (b, bd) -> dv < bd) /\
       exists i, keys !! i = Some v /\
         forall j w, j < i -> keys !! j = Some w -> dv < edit_distance word w)
  end.
Proof.
  revert best. induction keys as [|w keys IH]; intros best Hbest.
  - simpl. destruct best as [[b bd]|]; [|done].
    split_and!; [by eapply Hbest| | |by left].
    + by intros v' ?%elem_of_nil.
    + by intros ?? [= -> ->].
  - simpl. set (d := edit_distance word w).
    assert (forall b bd, Some (w, d) = Some (b, bd) -> bd = edit_distance word b)
      as Hwd by by intros ?? [= <- <-].
    destruct (match best with None => true | Some (_, best_d) => d <? best_d end)
      eqn:Hbetter.
    + assert (forall b bd, best = Some (b, bd) -> d < bd) as Hlt.
      { intros b bd ->. by apply Nat.ltb_lt. }
      destruct (Nat.eqb_spec d 0) as [Hd0|Hd0].
      * split_and!; [done| | |].
        -- intros w' _. lia.
        -- intros b bd Hb. lia.
        -- right. split; [done|]. exists 0. split; [done|]. intros j w'. lia.
      * specialize (IH (Some (w, d)) Hwd).
        destruct (closest_loop word keys (Some (w, d))) as [[v dv]|];
          [|by destruct IH].
        destruct IH as (Hdv & Hmin & Hle & Hfirst).
        specialize (Hle w d eq_refl). split_and!; [done| | |].
        -- intros w' [->|Hw']%elem_of_cons; [done|by apply Hmin].
        -- intros b bd Hb. specialize (Hlt b bd Hb). lia.
        -- right. split.
           { intros b bd Hb. specialize (Hlt b bd Hb).
             destruct Hfirst as [[= <- <-]|[Hlt' _]]; [done|].
             specialize (Hlt' w d eq_refl). lia. }
           destruct Hfirst as [[= <- <-]|[Hlt' (i & Hi & Hbefore)]].
           { exists 0. split; [done|]. intros j w'. lia. }
           exists (S i). split; [done|]. intros [|j] w' Hj Hw'.
           ++ simplify_eq/=. by apply (Hlt' w' (edit_distance word w')).
           ++ apply (Hbefore j); [lia|done].
    + destruct best as [[b0 bd0]|]; [|done].
      apply Nat.ltb_ge in Hbetter.
      specialize (IH (Some (b0, bd0)) Hbest).
      destruct (closest_loop word keys (Some (b0, bd0))) as [[v dv]|];
        [|by destruct IH].
      destruct IH as (Hdv & Hmin & Hle & Hfirst).
      specialize (Hle b0 bd0 eq_refl). split_and!; [done| | |].
      * intros w' [->|Hw']%elem_of_cons; [fold d; lia|by apply Hmin].
      * by intros ?? [= <- <-].
      * destruct Hfirst as [Hb|[Hlt' (i & Hi & Hbefore)]]; [by left|right].
        split; [done|]. exists (S i). split; [done|].
        intros [|j] w' Hj Hw'.
        -- simplify_eq/=. specialize (Hlt' b0 bd0 eq_refl). fold d. lia.
        -- apply (Hbefore j); [lia|done].
Qed.

(** X9. [_closest_by_edit_distance] returns [None] for an empty vocabulary
    only, and otherwise the first key, in the order of insertion, among
    those nearest to the word. *)
Theorem closest_by_edit_distance_first (self : Corretor) (word : str) :
  match _closest_by_edit_distance self word with
  | None => self_W self = []
  | Some v =>
      exists i,
        (self_W self).*1 !! i = Some v /\
        (forall w, w ∈ (self_W self).*1 ->
           edit_distance word v <= edit_distance word w) /\
        (forall j w, j < i -> (self_W self).*1 !! j = Some w ->
           edit_distance word v < edit_distance word w)
  end.
Proof.
  unfold _closest_by_edit_distance.
  pose proof (closest_loop_first word (self_W self).*1 None) as H.
  destruct (closest_loop word (self_W self).*1 None) as [[v dv]|]; simpl.
  - destruct H as (-> & Hmin & _ & [?|[_ (i & Hi & Hbefore)]]); [done|done|].
    by exists i.
  - destruct H as [_ H]; [done|]. by apply fmap_nil_inv in H.
Qed.

(** With a vocabulary that is not empty, and has no empty word, every
    candidate is a vocabulary word. *)
Lemma candidates_vocabulary (self : Corretor) (word c : str) :
  self_W self ≠ [] -> [] ∉ (self_W self).*1 ->
  c ∈ candidates self word -> c ∈ (self_W self).*1.
Proof.
  intros Hne Hnil. unfold candidates.
  destruct (contains _ _) eqn:Hw.
  { intros ->%elem_of_singleton. by apply contains_spec. }
  case_bool_decide.
  { by intros [_ ?]%elem_of_known. }
  case_bool_decide.
  { by intros [_ ?]%elem_of_known. }
  pose proof (closest_by_edit_distance_spec self word) as H'.
  destruct (_closest_by_edit_distance self word) as [[|x v]|]; [| |done].
  - by destruct H' as [? _].
  - intros ->%elem_of_singleton. apply (proj1 H').
Qed.

(** X10. With a vocabulary that is not empty, and has no empty word,
    [correction] answers with a vocabulary word (capitalized when the input
    starts with an uppercase character), however far the input is from the
    vocabulary. *)
Theorem correction_answers_from_vocabulary (self : Corretor) (word : str) :
  self_W self ≠ [] -> [] ∉ (self_W self).*1 -> word ≠ [] ->
  exists best,
    best ∈ (self_W self).*1 /\
    correction U O self word = Some (recase U word best).
Proof.
  intros Hne Hnil Hw.
  destruct (correction_selects U O self word Hw) as (best & (Hb & _) & ->).
  exists best. split; [|done]. by eapply candidates_vocabulary.
Qed.

(** X11. A candidate for an unknown word found among [edits1] is one or
    two edits away from the word; one found among [edits2], at most four. *)
Theorem candidates_distance_by_level (self : Corretor) (word c : str) :
  word ∉ (self_W self).*1 ->
  c ∈ candidates self word ->
  (known self (edits1 word) ≠ ∅ ->
     c ∈ edits1 word /\ 1 <= edit_distance word c <= 2) /\
  (known self (edits1 word) = ∅ -> known self (edits2 word) ≠ ∅ ->
     c ∈ edits2 word /\ 1 <= edit_distance word c <= 4).
Proof.
  intros Hw%contains_false Hc. unfold candidates in Hc. rewrite Hw in Hc.
  assert (c ∈ (self_W self).*1 -> 1 <= edit_distance word c) as Hpos.
  { intros Hk. rewrite edit_distance_lev. apply lev_pos. intros ->.
    apply contains_false in Hw. done. }
  split.
  - intros H1. rewrite bool_decide_eq_true_2 in Hc by done.
    apply elem_of_known in Hc as [Hc Hk]. split; [done|].
    split; [by apply Hpos|].
    rewrite edit_distance_lev. by apply edits1_lev.
  - intros H1 H2. rewrite bool_decide_eq_false_2 in Hc by (by intros []).
    rewrite bool_decide_eq_true_2 in Hc by done.
    apply elem_of_known in Hc as [Hc Hk]. split; [done|].
    split; [by apply Hpos|].
    pose proof Hc as Hc2. unfold edits2 in Hc2.
    apply elem_of_set_bind in Hc2 as (e & He & Hc2).
    destruct (edits1_lev word e He) as [? _].
    destruct (edits1_lev e c Hc2) as [? _].
    rewrite edit_distance_lev. pose proof (lev_triangle word e c). lia.
Qed.

End CandidateLevels.

(** [correction_answers_from_vocabulary] at the vocabulary
    [{casa: 10, caso: 1}] and a word far from both. *)
Lemma correction_answers_from_vocabulary_witness :
  exists best,
    best ∈ (self_W casa_caso).*1 /\
    correction latin1_only elements_order casa_caso (lit "Xyzzyx")
      = Some (recase latin1_only (lit "Xyzzyx") best).
Proof.
  apply (correction_answers_from_vocabulary latin1_only elements_order
           casa_caso (lit "Xyzzyx")).
  - discriminate.
  - apply contains_false. by vm_compute.
  - discriminate.
Defined.

(** [candidates_distance_by_level] at the vocabulary [{casa: 10, caso: 1}]
    and the word ["caxa"]. *)
Lemma candidates_distance_by_level_witness :
  (lit "caxa" ∉ (self_W casa_caso).*1) /\
  lit "casa" ∈ candidates casa_caso (lit "caxa") /\
  (known casa_caso (edits1 (lit "caxa")) ≠ ∅ ->
   lit "casa" ∈ edits1 (lit "caxa") /\
   1 <= Distance.edit_distance (lit "caxa") (lit "casa") <= 2) /\
  (known casa_caso (edits1 (lit "caxa")) = ∅ ->
   known casa_caso (edits2 (lit "caxa")) ≠ ∅ ->
   lit "casa" ∈ edits2 (lit "caxa") /\
   1 <= Distance.edit_distance (lit "caxa") (lit "casa") <= 4).
Proof.
  assert (lit "caxa" ∉ (self_W casa_caso).*1) as Hw.
  { apply contains_false. by vm_compute. }
  assert (lit "casa" ∈ candidates casa_caso (lit "caxa")) as Hc.
  { rewrite candidates_caxa. by apply elem_of_singleton. }
  split; [exact Hw|]. split; [exact Hc|].
  exact (candidates_distance_by_level casa_caso (lit "caxa") (lit "casa")
           Hw Hc).
Defined.

(** ** Correcting a corrected word *)

Section TitleFacts.
Import Latin1.
Local Open Scope N_scope.

Ltac plain t :=
  lazymatch t with
  | context [if _ then _ else _] => fail
  | _ => idtac
  end.

Ltac table_cases :=
  unfold in_word_class, to_lower, to_title, is_upper, covered in *;
  unfold is_upper_pair, is_lower_pair in *; unfold between in *;
  repeat (match goal with
          | |- context [?a <=? ?b] =>
              plain a; plain b; destruct (N.leb_spec a b)
          | |- context [?a =? ?b] =>
              plain a; plain b; destruct (N.eqb_spec a b)
          end; try (exfalso; lia); simpl).

(** The title case of a lowercase character of the class is an uppercase
    character, or the character itself. *)
Lemma to_title_upper_or_fixed c :
  in_word_class c = true -> to_lower c = c -> c ≠ 223 ->
  exists c', to_title c = [c'] /\ (is_upper c' = true \/ c' = c).
Proof.
  intros Hc Hl Hss.
  destruct (is_lower_pair c) eqn:Hp.
  - exists (c - 32). revert Hc Hl Hp. table_cases; intros; try done;
      split; try done; left; try done; lia.
  - destruct (N.eq_dec c 255) as [->|Hy].
    + exists 376. split; [done|by left].
    + exists c. revert Hc Hl Hp. table_cases; intros; try done;
        split; try done; try lia; by right.
Qed.

Lemma not_upper_lower_fixed c :
  in_word_class c = true -> is_upper c = false -> to_lower c = c.
Proof. table_cases; intros; try done; lia. Qed.

End TitleFacts.

Section Idempotence.
Context (U : unicode) (O : set_order).
Import Distance.

(** The candidate [correction] selects depends on the lowercase form of the
    word only. *)
Lemma correction_by_lowercase (self : Corretor) (low : str) :
  exists best,
    best ∈ candidates self low /\
    forall word, word ≠ [] -> lower U word = low ->
      correction U O self word = Some (recase U word best).
Proof.
  set (cands := set_iter O (candidates self low)).
  assert (cands ≠ []) as Hne
    by apply set_iter_nonempty, candidates_nonempty.
  destruct (py_min_spec (edit_distance low <$> cands))
    as (m & Hpm & Hm & Hmin).
  { by intros ?%fmap_nil_inv. }
  apply list_elem_of_fmap in Hm as (w & Hw & Hwin).
  destruct (filter (fun w => edit_distance low w = m) cands) as [|c cs] eqn:Hf.
  { assert (w ∈ filter (fun w => edit_distance low w = m) cands) as Hwf
      by by apply list_elem_of_filter.
    rewrite Hf in Hwf. by apply elem_of_nil in Hwf. }
  destruct (py_max_key_spec (P self) c cs) as [Hin _].
  exists (py_max_key (P self) c cs). split.
  - rewrite <- Hf in Hin. apply list_elem_of_filter in Hin as [_ Hin].
    by apply (elem_of_set_iter O) in Hin.
  - intros [|w0 w'] Hwne Hlow; [done|]. unfold correction.
    rewrite Hlow. fold cands. rewrite Hpm. simpl. by rewrite Hf.
Qed.

(** X12. With a vocabulary of lowercase words of the class, none starting
    with the sharp s, correcting the correction of a word-run changes
    nothing. *)
Theorem correction_idempotent (self : Corretor) (word r : str) :
  (forall k, k ∈ (self_W self).*1 ->
     fullmatch k = true /\ Latin1.lower k = k /\ k !! 0 ≠ Some 223%N) ->
  fullmatch word = true ->
  correction U O self word = Some r ->
  correction U O self r = Some r.
Proof.
  intros Hkeys Hm Hr.
  pose proof Hm as [Hwne Hwcl]%fullmatch_spec.
  pose proof (class_word_covered word Hwcl) as Hwcov.
  destruct (correction_by_lowercase self (lower U word))
    as (best & Hb & Hcorr).
  rewrite (Hcorr word Hwne eq_refl) in Hr. injection Hr as <-.
  destruct word as [|w0 w']; [done|].
  apply Forall_cons in Hwcl as [Hw0cl _].
  pose proof Hwcov as [Hw0cov Hw'cov]%Forall_cons.
  destruct (decide (best ∈ (self_W self).*1)) as [Hk|Hk].
  - destruct (Hkeys best Hk) as (Hbm & Hbl & Hbss).
    pose proof Hbm as [Hbne Hbcl]%fullmatch_spec.
    pose proof (class_word_covered best Hbcl) as Hbcov.
    assert (lower U (recase U (w0 :: w') best) = best) as Hlr.
    { apply lower_recase_candidate; [done..|]. by intros [_ ?]. }
    assert (recase U (w0 :: w') best ≠ []) as Hrne.
    { intros Hnil. rewrite Hnil, lower_latin1 in Hlr by constructor.
      by subst best. }
    rewrite (correction_known_word U O self _ Hrne) by by rewrite Hlr.
    rewrite Hlr. f_equal.
    destruct best as [|b0 bt]; [done|].
    injection Hbl as Hb0 Hbt. fold (Latin1.lower bt) in Hbt.
    apply Forall_cons in Hbcl as [Hb0cl _].
    pose proof Hbcov as [Hb0cov Hbtcov]%Forall_cons.
    pose proof (to_lower_fixed_not_upper b0 Hb0) as Hb0up.
    cbn [recase]. destruct (isupper U w0) eqn:Hup.
    + rewrite capitalize_latin1 by done. cbn [Latin1.capitalize].
      rewrite Hbt.
      assert (b0 ≠ 223%N) as Hss by (intros ->; by apply Hbss).
      destruct (to_title_lowers_back b0 Hb0cl Hb0 Hss)
        as (c' & Ht & Hc'cov & _).
      destruct (to_title_upper_or_fixed b0 Hb0cl Hb0 Hss)
        as (c'' & Ht' & Hc').
      rewrite Ht in Ht' |- *. injection Ht' as <-.
      cbn [app recase]. rewrite (isupper_latin1 U c' Hc'cov).
      destruct Hc' as [->| ->].
      * rewrite capitalize_latin1 by done. cbn [Latin1.capitalize].
        by rewrite Ht, Hbt.
      * by rewrite Hb0up.
    + cbn [recase]. by rewrite (isupper_latin1 U b0 Hb0cov), Hb0up.
  - apply candidates_subset in Hb as [Hb|Hb]; [done|]. subst best.
    assert (lower U (recase U (w0 :: w') (lower U (w0 :: w')))
              = lower U (w0 :: w')) as Hlr by by apply lower_recase_lower.
    assert (recase U (w0 :: w') (lower U (w0 :: w'))
              = recase U (recase U (w0 :: w') (lower U (w0 :: w')))
                  (lower U (w0 :: w'))) as Hfix.
    { cbn [recase]. rewrite (lower_latin1 U (w0 :: w') Hwcov).
      rewrite (isupper_latin1 U w0 Hw0cov).
      destruct (Latin1.is_upper w0) eqn:Hup.
      - rewrite capitalize_latin1 by by apply (lower_covered (w0 :: w')).
        cbn [Latin1.lower fmap list_fmap Latin1.capitalize].
        rewrite to_title_to_lower by done. cbn [app recase].
        rewrite (isupper_latin1 U w0 Hw0cov), Hup.
        rewrite capitalize_latin1 by by apply (lower_covered (w0 :: w')).
        cbn [Latin1.lower fmap list_fmap Latin1.capitalize].
        by rewrite to_title_to_lower by done.
      - cbn [Latin1.lower fmap list_fmap].
        rewrite (not_upper_lower_fixed w0 Hw0cl Hup). cbn [recase].
        by rewrite (isupper_latin1 U w0 Hw0cov), Hup. }
    assert (recase U (w0 :: w') (lower U (w0 :: w')) ≠ []) as Hrne.
    { intros Hnil. rewrite Hnil, (lower_latin1 U []) in Hlr by constructor.
      rewrite (lower_latin1 U (w0 :: w') Hwcov) in Hlr. done. }
    rewrite (Hcorr _ Hrne Hlr). by rewrite <- Hfix.
Qed.

End Idempotence.

(** [correction_idempotent] at the vocabulary [{casa: 10, caso: 1}] and
    the word ["caxa"]. *)
Lemma correction_idempotent_witness :
  correction latin1_only elements_order casa_caso (lit "caxa")
    = Some (lit "casa") /\
  correction latin1_only elements_order casa_caso (lit "casa")
    = Some (lit "casa").
Proof.
  assert (forall k, k ∈ (self_W casa_caso).*1 ->
            fullmatch k = true /\ Latin1.lower k = k /\
            k !! 0 ≠ Some 223%N) as Hkeys.
  { intros k Hk.
    apply elem_of_cons in Hk as [->|Hk];
      [split_and!; [reflexivity|reflexivity|discriminate]|].
    apply elem_of_cons in Hk as [->|Hk];
      [split_and!; [reflexivity|reflexivity|discriminate]|].
    apply elem_of_nil in Hk. destruct Hk. }
  split; [exact (correction_caxa latin1_only elements_order)|].
  exact (correction_idempotent latin1_only elements_order casa_caso
           (lit "caxa") (lit "casa") Hkeys eq_refl
           (correction_caxa latin1_only elements_order)).
Defined.

(** ** [words] *)

Section WordsFacts.
Context (U : unicode).

Lemma concat_findall_from (cur text : str) :
  concat (findall_from cur text) = cur ++ List.filter in_word_class text.
Proof.
  revert cur. induction text as [|c t IH]; intros cur; simpl.
  - destruct cur; simpl; by rewrite ?app_nil_r.
  - destruct (in_word_class c).
    + by rewrite IH, <- app_assoc.
    + destruct cur; simpl; by rewrite IH.
Qed.

(** X13. [words] returns the letters of the lowercased text, in order, and
    nothing else; every word it returns matches [_WORD_RE]. *)
Theorem words_keep_the_letters (text : str) :
  concat (words U text) = List.filter in_word_class (lower U text) /\
  Forall (fun w => fullmatch w = true) (words U text).
Proof.
  split; [apply concat_findall_from|].
  apply Forall_forall. intros w Hw. unfold words in Hw.
  apply (findall_from_spec (fun _ => True)) in Hw as [Hne Hall];
    [|done|by apply Forall_true].
  apply fullmatch_spec. split; [done|].
  eapply Forall_impl; [exact Hall|]. by intros c [? _].
Qed.

End WordsFacts.

(** ** The vocabulary [__init__] builds *)

Section CounterFacts.
Local Open Scope Z_scope.

Lemma filter_iff_in {A} (P Q : A -> Prop) `{!forall x, Decision (P x)}
  `{!forall x, Decision (Q x)} (l : list A) :
  (forall x, x ∈ l -> P x <-> Q x) -> filter P l = filter Q l.
Proof.
  induction l as [|x l IH]; intros HPQ; [done|].
  rewrite !filter_cons, IH by (intros y Hy; apply HPQ; by right).
  pose proof (HPQ x (list_elem_of_here _ _)).
  repeat case_decide; tauto || done.
Qed.

Lemma filter_all {A} (P : A -> Prop) `{!forall x, Decision (P x)}
  (l : list A) :
  (forall x, x ∈ l -> P x) -> filter P l = l.
Proof.
  induction l as [|x l IH]; intros HP; [done|].
  rewrite filter_cons, IH by (intros y Hy; apply HP; by right).
  rewrite decide_True; [done|]. apply HP. by left.
Qed.

Lemma count_counter_add (w : str) (c : counter) (k : str) :
  count (counter_add w c) k = count c k + if decide (w = k) then 1 else 0.
Proof.
  induction c as [|[k' f] c IH]; simpl.
  - repeat case_decide; congruence || lia.
  - destruct (decide (k' = w)) as [->|Hne]; simpl.
    + repeat case_decide; congruence || lia.
    + rewrite IH. repeat case_decide; congruence || lia.
Qed.

Lemma occurrences_cons (k w : str) (ws : list str) :
  occurrences k (w :: ws)
    = (if decide (w = k) then 1 else 0) + occurrences k ws.
Proof.
  unfold occurrences. rewrite filter_cons. case_decide; simpl; lia.
Qed.

Lemma occurrences_nonneg (k : str) (ws : list str) : 0 <= occurrences k ws.
Proof. unfold occurrences. lia. Qed.

Lemma occurrences_pos (k : str) (ws : list str) :
  1 <= occurrences k ws <-> k ∈ ws.
Proof.
  induction ws as [|w ws IH].
  - unfold occurrences. simpl. split; [lia|by intros ?%elem_of_nil].
  - rewrite occurrences_cons, elem_of_cons.
    pose proof (occurrences_nonneg k ws). case_decide.
    + split; [intros _; by left|lia].
    + rewrite <- IH. split; [intros; right; lia|].
      intros [->|?]; [done|lia].
Qed.

Lemma count_foldl_counter_add (ws : list str) (c : counter) (k : str) :
  count (foldl (fun c w => counter_add w c) c ws) k
    = count c k + occurrences k ws.
Proof.
  revert c. induction ws as [|w ws IH]; intros c; simpl.
  - unfold occurrences. simpl. lia.
  - rewrite IH, count_counter_add, occurrences_cons. lia.
Qed.

Lemma count_Counter (ws : list str) (k : str) :
  count (Counter ws) k = occurrences k ws.
Proof. unfold Counter. by rewrite count_foldl_counter_add. Qed.

Lemma counter_add_keys_eq (w : str) (c : counter) :
  (counter_add w c).*1 = if decide (w ∈ c.*1) then c.*1 else c.*1 ++ [w].
Proof.
  induction c as [|[k f] c IH].
  - destruct (decide _) as [[]%elem_of_nil|]; done.
  - cbn [counter_add]. destruct (decide (k = w)) as [->|Hne].
    + rewrite decide_True; [done|by left].
    + rewrite !fmap_cons, IH. cbn [fst].
      destruct (decide (w ∈ c.*1)) as [Hin|Hin].
      * rewrite decide_True; [done|by right].
      * rewrite decide_False; [done|].
        intros [?|?]%elem_of_cons; congruence.
Qed.

Lemma foldl_counter_add_keys (ws : list str) (c : counter) :
  (foldl (fun c w => counter_add w c) c ws).*1
    = c.*1 ++ filter (fun k => k ∉ c.*1) (first_occurrences ws).
Proof.
  revert c. induction ws as [|w ws IH]; intros c; simpl.
  - by rewrite app_nil_r.
  - rewrite IH, counter_add_keys_eq, filter_cons.
    destruct (decide (w ∈ c.*1)) as [Hin|Hin].
    + rewrite decide_False by (intros H; by apply H).
      f_equal. rewrite list_filter_filter. apply list_filter_iff.
      intros k. split; [|tauto]. intros Hk. split; [done|by intros ->].
    + rewrite decide_True by done. rewrite <- app_assoc. simpl. do 2 f_equal.
      rewrite list_filter_filter. apply list_filter_iff.
      intros k. rewrite elem_of_app, list_elem_of_singleton. tauto.
Qed.

Lemma Counter_keys_eq (ws : list str) :
  (Counter ws).*1 = first_occurrences ws.
Proof.
  unfold Counter. rewrite foldl_counter_add_keys. simpl.
  apply filter_all. intros k _. by intros ?%elem_of_nil.
Qed.

Lemma first_occurrences_NoDup (ws : list str) : NoDup (first_occurrences ws).
Proof.
  induction ws as [|w ws IH]; simpl; [constructor|].
  constructor.
  - intros [Hw _]%list_elem_of_filter. by apply Hw.
  - by apply NoDup_filter.
Qed.

Lemma elem_of_first_occurrences (ws : list str) (k : str) :
  k ∈ first_occurrences ws <-> k ∈ ws.
Proof.
  induction ws as [|w ws IH]; simpl; [done|].
  rewrite !elem_of_cons, list_elem_of_filter, IH.
  destruct (decide (k = w)); tauto.
Qed.

Lemma count_not_key (c : counter) (k : str) : k ∉ c.*1 -> count c k = 0.
Proof.
  induction c as [|[k' f] c IH]; simpl; [done|].
  intros Hk. case_decide as Hd.
  - subst. exfalso. apply Hk. by left.
  - apply IH. intros ?. apply Hk. by right.
Qed.

Lemma sum_counter_add (w : str) (c : counter) :
  foldr Z.add 0 (counter_add w c).*2 = foldr Z.add 0 c.*2 + 1.
Proof.
  induction c as [|[k f] c IH]; [done|]. cbn [counter_add].
  case_decide; rewrite !fmap_cons; cbn [foldr snd]; [lia|].
  rewrite IH. lia.
Qed.

Lemma sum_Counter (ws : list str) :
  foldr Z.add 0 (Counter ws).*2 = Z.of_nat (length ws).
Proof.
  unfold Counter.
  assert (forall c : counter,
            foldr Z.add 0 (foldl (fun c w => counter_add w c) c ws).*2
              = foldr Z.add 0 c.*2 + Z.of_nat (length ws)) as H.
  { induction ws as [|w ws IH]; intros c; simpl foldl; simpl length.
    - lia.
    - rewrite IH, sum_counter_add. lia. }
  by rewrite H.
Qed.

(** The counts kept under the threshold [min_freq]. *)
Lemma kept_keys (min_freq : Z) (W : counter) (k : str) :
  NoDup W.*1 ->
  (k ∈ (kept min_freq W).*1 <->
   k ∈ W.*1 /\ (1 < min_freq -> min_freq <= count W k)) /\
  count (kept min_freq W) k
    = (if decide (1 < min_freq -> min_freq <= count W k) then count W k else 0).
Proof.
  unfold kept. destruct (Z.ltb_spec 1 min_freq) as [Hmf|Hmf].
  2:{ intros _. split; [split; [intros ?; split; [done|lia]|tauto]|].
      rewrite decide_True; [done|lia]. }
  induction W as [|[k' f] W IH]; intros Hnd.
  - simpl. split; [|by case_decide].
    split; [by intros ?%elem_of_nil|by intros [?%elem_of_nil _]].
  - apply NoDup_cons in Hnd as [Hk' Hnd]. destruct (IH Hnd) as [IHk IHc].
    simpl in Hk'. rewrite filter_cons. simpl.
    destruct (decide (min_freq <= f)) as [Hf|Hf]; simpl.
    + rewrite !elem_of_cons, IHk, IHc. split.
      * destruct (decide (k' = k)) as [->|Hne]; [tauto|].
        split; [intros [->|[? ?]]; [done|tauto]|].
        intros [[->|?] ?]; [done|tauto].
      * destruct (decide (k' = k)); [|done]. rewrite decide_True; done.
    + rewrite IHk, IHc, elem_of_cons.
      destruct (decide (k' = k)) as [->|Hne].
      * rewrite (count_not_key W k Hk').
        split; [|repeat case_decide; lia].
        split; [by intros [? _]|]. intros [_ H]. specialize (H Hmf). lia.
      * split; [|done]. split; [intros [? ?]; split; [by right|done]|].
        intros [[->|?] ?]; [done|tauto].
Qed.

Lemma kept_NoDup (min_freq : Z) (W : counter) :
  NoDup W.*1 -> NoDup (kept min_freq W).*1.
Proof.
  unfold kept. destruct (1 <? min_freq); [|done].
  induction W as [|[k f] W IH]; [done|]. intros [Hk Hnd]%NoDup_cons.
  rewrite filter_cons. case_decide; [|by apply IH].
  simpl. constructor; [|by apply IH].
  intros ([k' f'] & -> & [_ Hin]%list_elem_of_filter)%list_elem_of_fmap.
  apply Hk, list_elem_of_fmap. by exists (k', f').
Qed.

Lemma kept_keys_eq (min_freq : Z) (W : counter) :
  NoDup W.*1 ->
  (kept min_freq W).*1
    = filter (fun k => 1 < min_freq -> min_freq <= count W k) W.*1.
Proof.
  unfold kept. destruct (Z.ltb_spec 1 min_freq) as [Hmf|Hmf].
  2:{ intros _. symmetry. apply filter_all. intros k _. lia. }
  induction W as [|[k f] W IH]; [intros _; reflexivity|].
  rewrite fmap_cons. cbn [fst]. intros [Hk Hnd]%NoDup_cons.
  rewrite (filter_cons _ (k, f)), (filter_cons _ k).
  rewrite (filter_iff_in
             (fun k0 => 1 < min_freq -> min_freq <= count ((k, f) :: W) k0)
             (fun k0 => 1 < min_freq -> min_freq <= count W k0) W.*1).
  2:{ intros k0 Hk0. cbn [count]. rewrite decide_False; [done|].
      by intros ->. }
  cbn [count snd]. rewrite (decide_True (P:=(k = k))) by done.
  destruct (decide (min_freq <= f)).
  - rewrite decide_True by done. rewrite fmap_cons. cbn [fst].
    by rewrite IH.
  - rewrite decide_False by lia. by rewrite IH.
Qed.

End CounterFacts.

Section InitVocabulary.
Context (U : unicode).
Local Open Scope Z_scope.

(** The words [__init__] counts: those of the corpus, none without one. *)
Lemma init_W (corpus : option str) (min_freq : Z) :
  self_W (init U corpus min_freq)
    = kept min_freq (Counter (default [] (words U <$> corpus))).
Proof. by destruct corpus. Qed.

Lemma Counter_NoDup (ws : list str) : NoDup (Counter ws).*1.
Proof. rewrite Counter_keys_eq. apply first_occurrences_NoDup. Qed.

Lemma kept_Counter (min_freq : Z) (ws : list str) (k : str) :
  (k ∈ (kept min_freq (Counter ws)).*1 <->
   Z.max 1 min_freq <= occurrences k ws) /\
  count (kept min_freq (Counter ws)) k
    = (if decide (Z.max 1 min_freq <= occurrences k ws)
       then occurrences k ws else 0).
Proof.
  destruct (kept_keys min_freq (Counter ws) k (Counter_NoDup ws)) as [Hk Hc].
  rewrite Hk, Hc, count_Counter, Counter_keys_eq, elem_of_first_occurrences.
  rewrite <- occurrences_pos. pose proof (occurrences_nonneg k ws).
  split; [lia|]. repeat case_decide; lia.
Qed.

Lemma count_keys_values (W : counter) :
  NoDup W.*1 -> count W <$> W.*1 = W.*2.
Proof.
  induction W as [|[k f] W IH]; [done|].
  rewrite !fmap_cons. cbn [fst snd]. intros [Hk Hnd]%NoDup_cons.
  cbn [count]. rewrite decide_True by done. f_equal.
  rewrite <- IH by done. apply list_fmap_ext. intros i k0 Hk0.
  rewrite decide_False; [done|]. intros ->.
  by apply Hk, list_elem_of_lookup_2 with i.
Qed.

Lemma sum_nonneg (l : list Z) (x : Z) :
  Forall (fun y => 0 <= y) l -> x ∈ l -> 0 <= x <= foldr Z.add 0 l.
Proof.
  induction 1 as [|y l Hy Hl IH]; [by intros ?%elem_of_nil|].
  assert (0 <= foldr Z.add 0 l).
  { clear IH. induction Hl; simpl; lia. }
  simpl. intros [->|Hx%IH]%elem_of_cons; lia.
Qed.

Lemma kept_Counter_values (min_freq : Z) (ws : list str) :
  Forall (fun f => 1 <= f) (kept min_freq (Counter ws)).*2.
Proof.
  rewrite <- count_keys_values by apply kept_NoDup, Counter_NoDup.
  apply Forall_fmap, Forall_forall. intros k Hk. simpl.
  destruct (kept_Counter min_freq ws k) as [Hin Hc].
  rewrite Hc. apply Hin in Hk. rewrite decide_True by done. lia.
Qed.

Lemma init_N (corpus : option str) (min_freq : Z) :
  self_N (init U corpus min_freq)
    = Z.max 1 (foldr Z.add 0 (self_W (init U corpus min_freq)).*2).
Proof.
  pose proof (init_W corpus min_freq) as HW. unfold init, with_counts in *.
  cbn [self_N self_W] in *. rewrite HW.
  pose proof (kept_Counter_values min_freq (default [] (words U <$> corpus)))
    as Hv.
  assert (0 <= foldr Z.add 0
                 (kept min_freq (Counter (default [] (words U <$> corpus)))).*2).
  { induction Hv; simpl; lia. }
  destruct (Z.eqb_spec
    (foldr Z.add 0
       (kept min_freq (Counter (default [] (words U <$> corpus)))).*2) 0);
    lia.
Qed.

Lemma init_count_bounds (corpus : option str) (min_freq : Z) (k : str) :
  0 <= count (self_W (init U corpus min_freq)) k
    <= self_N (init U corpus min_freq) /\
  1 <= self_N (init U corpus min_freq) /\
  (count (self_W (init U corpus min_freq)) k = 0 <->
   k ∉ (self_W (init U corpus min_freq)).*1).
Proof.
  rewrite init_N, init_W. set (ws := default [] (words U <$> corpus)).
  destruct (kept_Counter min_freq ws k) as [Hin Hc].
  pose proof (kept_Counter_values min_freq ws) as Hv.
  pose proof (occurrences_nonneg k ws).
  destruct (decide (Z.max 1 min_freq <= occurrences k ws)) as [Hk|Hk].
  - assert (count (kept min_freq (Counter ws)) k
              ∈ (kept min_freq (Counter ws)).*2) as Hel.
    { rewrite <- count_keys_values by apply kept_NoDup, Counter_NoDup.
      apply list_elem_of_fmap_2. by apply Hin. }
    apply sum_nonneg in Hel.
    2:{ eapply Forall_impl; [exact Hv|]. simpl. lia. }
    split; [lia|]. split; [lia|]. rewrite Hc, Hin in *. lia.
  - rewrite Hc, Hin. split; [lia|]. split; [lia|]. tauto.
Qed.

End InitVocabulary.

Section InitTheorems.
Context (U : unicode).
Local Open Scope Z_scope.

(** X14. The vocabulary built from a corpus holds the words that occur in
    it at least [min_freq] times (at least once for [min_freq] under 2),
    each with the number of its occurrences; every other word counts 0. *)
Theorem init_counts_occurrences (txt : str) (min_freq : Z) (k : str) :
  let self := init U (Some txt) min_freq in
  let n := occurrences k (words U txt) in
  (k ∈ (self_W self).*1 <-> Z.max 1 min_freq <= n) /\
  count (self_W self) k = (if decide (Z.max 1 min_freq <= n) then n else 0).
Proof. cbv zeta. rewrite init_W. apply kept_Counter. Qed.

(** X15. The keys of the vocabulary are distinct and stand in the order of
    their first occurrence in the corpus. *)
Theorem init_keys_in_corpus_order (txt : str) (min_freq : Z) :
  let self := init U (Some txt) min_freq in
  NoDup (self_W self).*1 /\
  (self_W self).*1
    = filter (fun k => min_freq <= Z.max 1 (occurrences k (words U txt)))
        (first_occurrences (words U txt)).
Proof.
  cbv zeta. rewrite init_W. simpl. split.
  - apply kept_NoDup, Counter_NoDup.
  - rewrite kept_keys_eq by apply Counter_NoDup.
    rewrite Counter_keys_eq. apply filter_iff_in. intros k Hk.
    rewrite count_Counter.
    apply elem_of_first_occurrences, occurrences_pos in Hk. lia.
Qed.

(** X16. [self.N] is the sum of the counts kept, and 1 for an empty
    vocabulary: it is never 0, no count exceeds it, and without a threshold
    it is the number of words of the corpus. Without a corpus the
    vocabulary is empty. *)
Theorem init_total (corpus : option str) (min_freq : Z) :
  let self := init U corpus min_freq in
  1 <= self_N self /\
  self_N self
    = Z.max 1 (foldr Z.add 0 (count (self_W self) <$> (self_W self).*1)) /\
  (forall k, 0 <= count (self_W self) k <= self_N self) /\
  (min_freq <= 1 ->
   self_N self
     = Z.max 1 (Z.of_nat (length (default [] (words U <$> corpus))))) /\
  (corpus = None -> self_W self = []).
Proof.
  cbv zeta. split_and!.
  - apply (init_count_bounds U corpus min_freq []).
  - rewrite count_keys_values; [apply init_N|].
    rewrite init_W. apply kept_NoDup, Counter_NoDup.
  - intros k. apply init_count_bounds.
  - intros Hmf. rewrite init_N, init_W. unfold kept.
    destruct (Z.ltb_spec 1 min_freq); [lia|]. by rewrite sum_Counter.
  - intros ->. rewrite init_W. unfold kept. by destruct (1 <? min_freq).
Qed.

End InitTheorems.

(** ** [P] on a vocabulary built by [__init__] *)

Section ProbabilityFacts.
Context (U : unicode).

Lemma P_quotient (self : Corretor) (w : str) :
  (1 <= self_N self)%Z ->
  P self w = (inject_Z (count (self_W self) w) / inject_Z (self_N self))%Q.
Proof.
  intros HN. unfold P. destruct (Z.eqb_spec (self_N self) 0); [lia|done].
Qed.

Lemma quotient_le (a b n : Z) :
  (1 <= n)%Z ->
  (inject_Z a / inject_Z n <= inject_Z b / inject_Z n)%Q <-> (a <= b)%Z.
Proof.
  intros Hn. destruct n as [|p|p]; [lia| |lia].
  unfold Qle, Qdiv, Qmult, Qinv, inject_Z. simpl.
  rewrite !Z.mul_1_r. split; intros H; nia.
Qed.

Lemma quotient_bounds (a n : Z) :
  (1 <= n)%Z ->
  ((0 <= inject_Z a / inject_Z n)%Q <-> (0 <= a)%Z) /\
  ((inject_Z a / inject_Z n <= 1)%Q <-> (a <= n)%Z) /\
  ((inject_Z a / inject_Z n == 0)%Q <-> a = 0%Z).
Proof.
  intros Hn. destruct n as [|p|p]; [lia| |lia].
  unfold Qle, Qeq, Qdiv, Qmult, Qinv, inject_Z. simpl.
  rewrite !Z.mul_1_r. lia.
Qed.

Lemma quotient_sum (g : str -> Z) (n : Z) (l : list str) :
  (foldr Qplus 0 ((fun k => inject_Z (g k) / inject_Z n) <$> l)
   == inject_Z (foldr Z.add 0%Z (g <$> l)) / inject_Z n)%Q.
Proof.
  induction l as [|k l IH].
  - simpl. unfold Qdiv. by rewrite Qmult_0_l.
  - rewrite !fmap_cons. cbn [foldr]. rewrite IH, inject_Z_plus.
    unfold Qdiv. by rewrite Qmult_plus_distr_l.
Qed.

(** X17. On a vocabulary built by [__init__], [P] lies between 0 and 1, is
    0 exactly for the words outside the vocabulary, and orders the words as
    their counts do. *)
Theorem P_relative_frequency (corpus : option str) (min_freq : Z)
  (a b : str) :
  let self := init U corpus min_freq in
  (0 <= P self a <= 1)%Q /\
  (P self a == 0 <-> a ∉ (self_W self).*1)%Q /\
  ((P self a <= P self b)%Q <->
   (count (self_W self) a <= count (self_W self) b)%Z).
Proof.
  cbv zeta. set (self := init U corpus min_freq).
  destruct (init_count_bounds U corpus min_freq a) as (Ha & HN & H0).
  fold self in Ha, HN, H0. rewrite !(P_quotient self) by done.
  destruct (quotient_bounds (count (self_W self) a) (self_N self) HN)
    as (Hq0 & Hq1 & Hqz).
  split_and!.
  - apply Hq0. lia.
  - apply Hq1. lia.
  - by rewrite Hqz.
  - by apply quotient_le.
Qed.

(** X18. The values of [P], as exact quotients, over a vocabulary built by
    [__init__] that is not empty add up to 1. *)
Theorem P_sums_to_one (corpus : option str) (min_freq : Z) :
  self_W (init U corpus min_freq) ≠ [] ->
  (foldr Qplus 0
     (P (init U corpus min_freq) <$> (self_W (init U corpus min_freq)).*1)
   == 1)%Q.
Proof.
  set (self := init U corpus min_freq). intros Hne.
  destruct (init_count_bounds U corpus min_freq []) as (_ & HN & _).
  fold self in HN.
  rewrite (list_fmap_ext (P self)
             (fun k => inject_Z (count (self_W self) k)
                       / inject_Z (self_N self))%Q)
    by (intros i k _; by apply P_quotient).
  rewrite quotient_sum.
  rewrite count_keys_values
    by (unfold self; rewrite init_W; apply kept_NoDup, Counter_NoDup).
  pose proof (init_N U corpus min_freq) as HNeq. fold self in HNeq.
  assert (1 <= foldr Z.add 0 (self_W self).*2)%Z as Hsum.
  { pose proof (kept_Counter_values min_freq
                  (default [] (words U <$> corpus))) as Hv.
    rewrite <- (init_W U) in Hv. fold self in Hv.
    destruct (self_W self) as [|[k f] W]; [done|].
    rewrite fmap_cons in Hv |- *. apply Forall_cons in Hv as [Hf Hv].
    assert (0 <= foldr Z.add 0 W.*2)%Z by (induction Hv; simpl; lia).
    simpl in *. lia. }
  rewrite Z.max_r in HNeq by done. rewrite <- HNeq.
  unfold Qdiv. apply Qmult_inv_r.
  intros H. destruct (self_N self); [lia|done|done].
Qed.

End ProbabilityFacts.

(** [P_sums_to_one] at the vocabulary of the corpus ["a casa, a Casa"]. *)
Lemma P_sums_to_one_witness :
  (self_W (init latin1_only (Some (lit "a casa, a Casa")) 1) ≠ []) /\
  (foldr Qplus 0
     (P (init latin1_only (Some (lit "a casa, a Casa")) 1)
        <$> (self_W (init latin1_only (Some (lit "a casa, a Casa")) 1)).*1)
   == 1)%Q.
Proof.
  assert (self_W (init latin1_only (Some (lit "a casa, a Casa")) 1) ≠ [])
    as H by (vm_compute; discriminate).
  split; [exact H|]. apply (P_sums_to_one latin1_only _ _ H).
Defined.

Section AppFacts.
Context (U : unicode) (O : set_order).

Lemma changes_empty_iff (self : Corretor) (parts : list str) :
  foldl (record_change U O self) ∅ parts = ∅ <->
  forall p, p ∈ parts -> ~ changed U O self p.
Proof.
  split.
  - intros Hm p Hp Hc.
    pose proof (lookup_changes U O self parts ∅ p) as Hl.
    rewrite Hm, lookup_empty, decide_True in Hl by done. done.
  - intros H. apply map_eq. intros k.
    rewrite lookup_changes, lookup_empty, decide_False; [done|].
    intros [Hin Hc]. by apply (H k).
Qed.

Lemma part_of_text (text p : str) (c : N) :
  p ∈ re_split U text -> c ∈ p -> c ∈ text.
Proof.
  intros Hp Hc. rewrite <- (concat_re_split U text).
  induction (re_split U text) as [|q parts IH]; [by apply elem_of_nil in Hp|].
  simpl. apply elem_of_app.
  apply elem_of_cons in Hp as [->|Hp]; [by left|right; by apply IH].
Qed.

(** X19. [check_text] answers every request: the response holds the text
    of the request and the result of [correct_sentence], and [is_correct] is
    true exactly when no change is recorded, that is when the correction of
    each word-run is the word-run itself ignoring case. *)
Theorem check_text_response (vocab : option str) (text : str) :
  exists r,
    App.check_text U O vocab text = Some r /\
    App.original r = text /\
    correct_sentence U O (App.sc U vocab) text
      = Some (App.corrected r, App.changes r) /\
    (App.is_correct r = true <-> App.changes r = ∅) /\
    (App.is_correct r = true <->
     forall p c, p ∈ re_split U text -> fullmatch p = true ->
       correction U O (App.sc U vocab) p = Some c ->
       lower U c = lower U p).
Proof.
  unfold App.check_text. rewrite correct_sentence_eq. simpl.
  eexists. split; [done|]. simpl. split; [done|]. split; [done|].
  rewrite bool_decide_eq_true, map_size_empty_iff. split; [done|].
  rewrite changes_empty_iff. unfold changed. split.
  - intros H p c Hp Hm Hc. destruct (decide (lower U c = lower U p)); [done|].
    exfalso. apply (H p Hp). split; [done|].
    unfold corrected. by rewrite Hc.
  - intros H p Hp [Hm Hd]. apply Hd. apply (H p _ Hp Hm).
    apply correction_corrected.
Qed.

(** X20. Without the vocabulary file, [check_text] reports every text as
    correct, with no change. *)
Theorem check_text_without_vocabulary (text : str) :
  exists c,
    App.check_text U O None text
      = Some {| App.original := text; App.corrected := c;
                App.changes := ∅; App.is_correct := true |}.
Proof.
  unfold App.check_text. rewrite correct_sentence_eq. simpl.
  rewrite changes_none; [by eexists|].
  intros p _ Hm. unfold corrected.
  rewrite correction_empty_vocabulary; [|by destruct p|done].
  by apply lower_recase_lower.
Qed.

(** X21. A text without a character of the class [[A-Za-zÀ-ÿ]] comes back
    unchanged and is reported correct, whatever the vocabulary. *)
Theorem check_text_without_letters (vocab : option str) (text : str) :
  Forall (fun c => in_word_class c = false) text ->
  App.check_text U O vocab text
    = Some {| App.original := text; App.corrected := text;
              App.changes := ∅; App.is_correct := true |}.
Proof.
  intros Hno. unfold App.check_text.
  rewrite correct_sentence_unchanged; [done|].
  intros p Hp [Hne Hall]%fullmatch_spec. destruct p as [|c p]; [done|].
  apply Forall_cons in Hall as [Hc _].
  assert (c ∈ text) as Hin by (eapply part_of_text; [exact Hp|by left]).
  rewrite Forall_forall in Hno. specialize (Hno c Hin). congruence.
Qed.

End AppFacts.

(** [check_text_without_letters] at the text ["12, 3!"]. *)
Lemma check_text_without_letters_witness :
  Forall (fun c => in_word_class c = false) (lit "12, 3!") /\
  App.check_text latin1_only elements_order (Some (lit "a casa"))
      (lit "12, 3!")
    = Some {| App.original := lit "12, 3!"; App.corrected := lit "12, 3!";
              App.changes := ∅; App.is_correct := true |}.
Proof.
  assert (Forall (fun c => in_word_class c = false) (lit "12, 3!")) as H.
  { apply Forall_forall. intros c Hc.
    repeat (apply elem_of_cons in Hc as [->|Hc]; [reflexivity|]).
    by apply elem_of_nil in Hc. }
  split; [exact H|].
  apply (check_text_without_letters latin1_only elements_order _ _ H).
Defined.
